(** * kube-metrics-adapter: metric store and collectors

    A shallow embedding of [pkg/provider/metric_store.go] and of the
    ZMON and skipper collectors of [pkg/collector], with the properties
    the design document states about them. *)

From Stdlib Require Import ZArith Lia.
From Stdlib Require Import Strings.String Strings.Ascii.
From Stdlib Require Import Floats.SpecFloat.
From stdpp Require Import gmap strings list fin_maps sorting pretty.

Local Open Scope Z_scope.

(** ** Go runtime notions shared by both packages *)

(** [time.Time] as nanoseconds since the epoch, [time.Duration] as
    nanoseconds. *)
Definition Time := Z.
Definition Duration := Z.
Definition Minute : Duration := 60 * 1000000000.

(** A Go function either returns or panics.  A panic unwinds through
    the deferred [Unlock], so the store mutated so far stays behind. *)
Inductive outcome (A : Type) : Type :=
| Returned (a : A)
| Panicked (reason : string) (a : A).
Arguments Returned {A} a.
Arguments Panicked {A} reason a.

Definition nil_map_assignment : string := "assignment to entry in nil map".

(** The state a call leaves behind, however it ended. *)
Definition state_after {A} (o : outcome A) : A :=
  match o with Returned a => a | Panicked _ a => a end.

Definition returns {A} (o : outcome A) : bool :=
  match o with Returned _ => true | Panicked _ _ => false end.

(** [for k, v := range m] visits the entries of a map in an order the
    language leaves open.  A [RangeOrder] is one choice of that order
    for every map; what is proved of a call is proved for every such
    choice. *)
Class RangeOrder := {
  range : ∀ {K V} `{Countable K}, gmap K V → list (K * V);
  range_perm : ∀ {K V} `{Countable K} (m : gmap K V), range m ≡ₚ map_to_list m
}.

(** The order in which stdpp lists a map, and its reverse. *)
Definition canonical_order : RangeOrder :=
  {| range := λ K V _ _ m, map_to_list m;
     range_perm := λ K V _ _ m, reflexivity _ |}.

Definition reversed_order : RangeOrder :=
  {| range := λ K V _ _ m, reverse (map_to_list m);
     range_perm := λ K V _ _ m, reverse_Permutation (map_to_list m) |}.

(** ** Kubernetes API types used by the store *)

Module schema.
Record GroupResource := { Group : string; Resource : string }.

Definition zero : GroupResource := {| Group := ""; Resource := "" |}.

#[global] Instance GroupResource_eq_dec : EqDecision GroupResource.
Proof. solve_decision. Defined.

#[global] Instance GroupResource_countable : Countable GroupResource.
Proof.
  refine (inj_countable' (λ g, (Group g, Resource g))
                         (λ p, {| Group := p.1; Resource := p.2 |}) _).
  by intros [].
Defined.
End schema.

(** [resource.Quantity] is kept as its milli-unit value. *)
Definition Quantity := Z.

Abbreviation Labels := (gmap string string).

Module custom_metrics.
Record ObjectReference := {
  Kind : string;
  Namespace : string;
  Name : string
}.

Record MetricValue := {
  DescribedObject : ObjectReference;
  MetricName : string;
  Timestamp : Time;
  Value : Quantity
}.

Definition zero : MetricValue :=
  {| DescribedObject := {| Kind := ""; Namespace := ""; Name := "" |};
     MetricName := ""; Timestamp := 0; Value := 0 |}.
End custom_metrics.

Module external_metrics.
Record ExternalMetricValue := {
  MetricName : string;
  MetricLabels : Labels;
  Timestamp : Time;
  Value : Quantity
}.

Definition zero : ExternalMetricValue :=
  {| MetricName := ""; MetricLabels := ∅; Timestamp := 0; Value := 0 |}.
End external_metrics.

(** [autoscalingv2beta1.MetricSourceType] is a string type; the three
    named constants and any other string. *)
Inductive MetricSourceType :=
| ObjectMetricSourceType
| PodsMetricSourceType
| ExternalMetricSourceType
| OtherSourceType (s : string).

(** Modelled from the spec: the [CollectedMetric] struct of
    [pkg/collector], whose declaration is not among the sources; the
    fields are the ones [Insert] and the collectors read and write,
    [Type] as [Type_] and [Labels] as [CLabels]. *)
Record CollectedMetric := {
  Type_ : MetricSourceType;
  Custom : custom_metrics.MetricValue;
  External : external_metrics.ExternalMetricValue;
  CLabels : Labels
}.

(** ** pkg/provider: the metric store *)

(** The fields [Value], [Labels] and [TTL] of the two stored-metric
    structs carry a prefix, [c] for custom and [e] for external. *)
Record customMetricsStoredMetric := {
  cValue : custom_metrics.MetricValue;
  cLabels : Labels;
  cTTL : Time
}.

Record externalMetricsStoredMetric := {
  eValue : external_metrics.ExternalMetricValue;
  eTTL : Time
}.

Abbreviation resourceMap := (gmap string customMetricsStoredMetric).
Abbreviation namespaceMap := (gmap string (gmap string customMetricsStoredMetric)).
Abbreviation groupMap :=
  (gmap schema.GroupResource (gmap string (gmap string customMetricsStoredMetric))).
Abbreviation customStore :=
  (gmap string (gmap schema.GroupResource
     (gmap string (gmap string customMetricsStoredMetric)))).
Abbreviation externalStore := (gmap string (gmap string externalMetricsStoredMetric)).

Record MetricStore := {
  customMetricsStore : customStore;
  externalMetricsStore : externalStore
}.

Definition NewMetricStore : MetricStore :=
  {| customMetricsStore := ∅; externalMetricsStore := ∅ |}.

Definition with_custom (s : MetricStore) (c : customStore) : MetricStore :=
  {| customMetricsStore := c; externalMetricsStore := externalMetricsStore s |}.

Definition with_external (s : MetricStore) (e : externalStore) : MetricStore :=
  {| customMetricsStore := customMetricsStore s; externalMetricsStore := e |}.

(** The switch on [value.DescribedObject.Kind]; any other kind leaves
    [groupResource] at its zero value. *)
Definition groupResourceOf (kind : string) : schema.GroupResource :=
  if decide (kind = "Pod") then
    {| schema.Group := ""; schema.Resource := "pods" |}
  else if decide (kind = "Ingress") then
    {| schema.Group := "extensions"; schema.Resource := "ingresses" |}
  else schema.zero.

Definition TTL_of (now : Time) : Time := now + 15 * Minute.

(** [insertCustomMetric].  The inner maps are references held by the
    outer ones, so every assignment through [metrics], [group] or
    [namespace] is written back along the path it was read from. *)
Definition insertCustomMetric (now : Time) (value : custom_metrics.MetricValue)
    (labels : Labels) (s : MetricStore) : outcome MetricStore :=
  let groupResource := groupResourceOf (custom_metrics.Kind (custom_metrics.DescribedObject value)) in
  let ns := custom_metrics.Namespace (custom_metrics.DescribedObject value) in
  let name := custom_metrics.Name (custom_metrics.DescribedObject value) in
  let mname := custom_metrics.MetricName value in
  let metric := {| cValue := value; cLabels := labels; cTTL := TTL_of now |} in
  match customMetricsStore s !! mname with
  | None =>
      Returned (with_custom s
        (<[mname := {[groupResource := {[ns := {[name := metric]}]}]}]>
           (customMetricsStore s)))
  | Some metrics =>
      (* group, ok := metrics[groupResource]; a miss leaves [group] nil *)
      let group : option namespaceMap := metrics !! groupResource in
      match group with
      | None =>
          (* metrics[groupResource] = {ns: {name: metric}}, and no return *)
          let metrics1 : groupMap :=
            <[groupResource := {[ns := {[name := metric]}]}]> metrics in
          (* namespace, ok := group[ns] misses on the nil map, and
             group[ns] = {name: metric} assigns into it *)
          Panicked nil_map_assignment
            (with_custom s (<[mname := metrics1]> (customMetricsStore s)))
      | Some g =>
          (* namespace, ok := group[ns]; a miss leaves [namespace] nil *)
          match g !! ns with
          | None =>
              (* group[ns] = {name: metric}, and no return *)
              let g1 : namespaceMap := <[ns := {[name := metric]}]> g in
              (* namespace[name] = metric assigns into the nil map *)
              Panicked nil_map_assignment
                (with_custom s
                   (<[mname := <[groupResource := g1]> metrics]> (customMetricsStore s)))
          | Some r =>
              (* namespace[name] = metric *)
              let r1 : resourceMap := <[name := metric]> r in
              Returned (with_custom s
                (<[mname := <[groupResource := <[ns := r1]> g]> metrics]>
                   (customMetricsStore s)))
          end
      end
  end.

(** [sort.Strings]: the byte-wise increasing arrangement of the slice. *)
Definition sort_Strings (l : list string) : list string := merge_sort String.le l.

(** [strings.Join]. *)
Fixpoint strings_Join (l : list string) (sep : string) : string :=
  match l with
  | [] => ""
  | [x] => x
  | x :: rest => x +:+ sep +:+ strings_Join rest sep
  end.

Section store.
Context {RO : RangeOrder}.

(** [hashLabelMap]: one ["k=v"] string per entry, in the order the
    range visits them, then sorted and joined. *)
Definition hashLabelMap (labels : Labels) : string :=
  let strLabels := (λ kv : string * string, kv.1 +:+ "=" +:+ kv.2) <$> range labels in
  strings_Join (sort_Strings strLabels) ",".

Definition insertExternalMetric (now : Time)
    (metric : external_metrics.ExternalMetricValue) (s : MetricStore) : MetricStore :=
  let storedMetric := {| eValue := metric; eTTL := TTL_of now |} in
  let labelsKey := hashLabelMap (external_metrics.MetricLabels metric) in
  let mname := external_metrics.MetricName metric in
  match externalMetricsStore s !! mname with
  | Some metrics =>
      with_external s (<[mname := <[labelsKey := storedMetric]> metrics]> (externalMetricsStore s))
  | None =>
      with_external s (<[mname := {[labelsKey := storedMetric]}]> (externalMetricsStore s))
  end.

Definition Insert (now : Time) (value : CollectedMetric) (s : MetricStore)
    : outcome MetricStore :=
  match Type_ value with
  | ObjectMetricSourceType | PodsMetricSourceType =>
      insertCustomMetric now (Custom value) (CLabels value) s
  | ExternalMetricSourceType =>
      Returned (insertExternalMetric now (External value) s)
  | OtherSourceType _ => Returned s
  end.

(** [labels.Selector], seen through its [Matches] method. *)
Definition Selector := Labels → bool.

(** The loop body shared by both branches of [GetMetricsBySelector]:
    the values of one namespace whose labels match, in range order. *)
Definition matching (selector : Selector) (metricMap : resourceMap)
    : list custom_metrics.MetricValue :=
  omap (λ kv : string * customMetricsStoredMetric,
          if selector (cLabels kv.2) then Some (cValue kv.2) else None)
       (range metricMap).

(** [GetMetricsBySelector]; [None] is the nil pointer, [Some items]
    a list holding [items]. *)
Definition GetMetricsBySelector (metricName : string)
    (groupResource : schema.GroupResource) (namespace : string)
    (selector : Selector) (s : MetricStore)
    : option (list custom_metrics.MetricValue) :=
  match customMetricsStore s !! metricName with
  | None => None
  | Some metrics =>
      match metrics !! groupResource with
      | None => None
      | Some group =>
          if decide (namespace = "") then
            Some (range group ≫= (λ kv, matching selector kv.2))
          else
            match group !! namespace with
            | Some metricMap => Some (matching selector metricMap)
            | None => Some []
            end
      end
  end.

(** The namespace scan of [GetMetricsByName]: the first namespace, in
    range order, that holds [name]. *)
Fixpoint first_named (name : string) (l : list (string * resourceMap))
    : option custom_metrics.MetricValue :=
  match l with
  | [] => None
  | (_, metricMap) :: rest =>
      match metricMap !! name with
      | Some metric => Some (cValue metric)
      | None => first_named name rest
      end
  end.

Definition GetMetricsByName (metricName : string)
    (groupResource : schema.GroupResource) (namespace name : string)
    (s : MetricStore) : option custom_metrics.MetricValue :=
  match customMetricsStore s !! metricName with
  | None => None
  | Some metrics =>
      match metrics !! groupResource with
      | None => None
      | Some group =>
          if decide (namespace = "") then first_named name (range group)
          else
            match group !! namespace with
            | Some metricMap => cValue <$> metricMap !! name
            | None => None
            end
      end
  end.

(** [for k, v := range m { if expired(k, v) { delete(m, k) } }] *)
Definition expire_range {K V} `{Countable K} (expired : K → V → bool)
    (m : gmap K V) : gmap K V :=
  foldl (λ acc kv, if expired kv.1 kv.2 then delete kv.1 acc else acc) m (range m).

(** [for k, v := range m { body(k, v); if len(v) == 0 { delete(m, k) } }]
    where the body mutates the map [v] in place: [m] sees the mutated
    map under [k] before the length test. *)
Definition prune_range {K K' V} `{Countable K} `{Countable K'}
    (body : K → gmap K' V → gmap K' V) (m : gmap K (gmap K' V))
    : gmap K (gmap K' V) :=
  foldl (λ acc kv,
           let v' := body kv.1 kv.2 in
           let acc' := <[kv.1 := v']> acc in
           if decide (size v' = 0%nat) then delete kv.1 acc' else acc')
        m (range m).

(** [RemoveExpired].  Every TTL test reads the clock anew; [clock_c]
    and [clock_e] give the reading taken at the custom or external
    entry the sweep is looking at. *)
Definition RemoveExpired
    (clock_c : string → schema.GroupResource → string → string → Time)
    (clock_e : string → string → Time) (s : MetricStore) : MetricStore :=
  let custom :=
    prune_range (λ metricName groups,
      prune_range (λ group namespaces,
        prune_range (λ namespace resources,
          expire_range (λ resource metric,
            bool_decide (cTTL metric < clock_c metricName group namespace resource))
            resources)
          namespaces)
        groups)
      (customMetricsStore s) in
  let external :=
    prune_range (λ metricName metrics,
      expire_range (λ k metric, bool_decide (eTTL metric < clock_e metricName k))
        metrics)
      (externalMetricsStore s) in
  {| customMetricsStore := custom; externalMetricsStore := external |}.
End store.

(** *** Paths into the store *)

(** The identity of a custom metric: the four keys along its path. *)
Record identity := {
  id_metric : string;
  id_group : schema.GroupResource;
  id_namespace : string;
  id_name : string
}.

#[global] Instance identity_eq_dec : EqDecision identity.
Proof. solve_decision. Defined.

(** The path [insertCustomMetric] files a value under. *)
Definition identity_of (value : custom_metrics.MetricValue) : identity :=
  {| id_metric := custom_metrics.MetricName value;
     id_group := groupResourceOf (custom_metrics.Kind (custom_metrics.DescribedObject value));
     id_namespace := custom_metrics.Namespace (custom_metrics.DescribedObject value);
     id_name := custom_metrics.Name (custom_metrics.DescribedObject value) |}.

Definition lookup_custom (s : MetricStore) (i : identity)
    : option customMetricsStoredMetric :=
  groups ← customMetricsStore s !! id_metric i;
  namespaces ← groups !! id_group i;
  resources ← namespaces !! id_namespace i;
  resources !! id_name i.

Definition lookup_external (s : MetricStore) (metricName labelsKey : string)
    : option externalMetricsStoredMetric :=
  metrics ← externalMetricsStore s !! metricName;
  metrics !! labelsKey.

(** Every stored custom entry with the path it sits at. *)
Definition custom_entries (s : MetricStore)
    : list (identity * customMetricsStoredMetric) :=
  mg ← map_to_list (customMetricsStore s);
  gn ← map_to_list mg.2;
  nr ← map_to_list gn.2;
  (λ ne : string * customMetricsStoredMetric,
     ({| id_metric := mg.1; id_group := gn.1; id_namespace := nr.1; id_name := ne.1 |},
      ne.2)) <$> map_to_list nr.2.

(** How many stored entries sit at one identity. *)
Definition entries_at (s : MetricStore) (i : identity) : nat :=
  length (filter (λ e : identity * customMetricsStoredMetric, e.1 = i) (custom_entries s)).

(** A run of inserts, each at its own clock reading; a panic that is
    recovered leaves the store as the panicking call left it. *)
Definition run_inserts {RO : RangeOrder} (ops : list (Time * CollectedMetric))
    (s : MetricStore) : MetricStore :=
  foldl (λ acc op, state_after (Insert op.1 op.2 acc)) s ops.

(** No map of the store, at any level, is left empty. *)
Definition no_empty_maps (s : MetricStore) : Prop :=
  (∀ m groups, customMetricsStore s !! m = Some groups →
     groups ≠ ∅ ∧
     ∀ g namespaces, groups !! g = Some namespaces →
       namespaces ≠ ∅ ∧
       ∀ ns resources, namespaces !! ns = Some resources → resources ≠ ∅) ∧
  (∀ m metrics, externalMetricsStore s !! m = Some metrics → metrics ≠ ∅).

(** *** Sample values *)

Definition sample_value (kind ns name : string) (q : Quantity)
    : custom_metrics.MetricValue :=
  {| custom_metrics.DescribedObject :=
       {| custom_metrics.Kind := kind;
          custom_metrics.Namespace := ns;
          custom_metrics.Name := name |};
     custom_metrics.MetricName := "requests-per-second";
     custom_metrics.Timestamp := 0;
     custom_metrics.Value := q |}.

Definition sample_metric (kind ns name : string) (q : Quantity) : CollectedMetric :=
  {| Type_ := if decide (kind = "Pod") then PodsMetricSourceType else ObjectMetricSourceType;
     Custom := sample_value kind ns name q;
     External := external_metrics.zero;
     CLabels := {[ "app" := "x" ]} |}.

(** The store after one insert for pod [ns1/pod-a]. *)
Definition store_with_pod_a {RO : RangeOrder} : MetricStore :=
  state_after (Insert 0 (sample_metric "Pod" "ns1" "pod-a" 42) NewMetricStore).

(** The stores a process can be in: a panic ends the process, so only
    inserts that returned and sweeps lead from one store to the next. *)
Inductive reachable {RO : RangeOrder} : MetricStore → Prop :=
| reachable_new : reachable NewMetricStore
| reachable_Insert now value s s' :
    reachable s → Insert now value s = Returned s' → reachable s'
| reachable_RemoveExpired clock_c clock_e s :
    reachable s → reachable (RemoveExpired clock_c clock_e s).

(** Every metric name and group-resource holds entries of one
    namespace only. *)
Definition one_namespace (s : MetricStore) : Prop :=
  ∀ m groups g namespaces ns1 ns2,
    customMetricsStore s !! m = Some groups →
    groups !! g = Some namespaces →
    is_Some (namespaces !! ns1) → is_Some (namespaces !! ns2) → ns1 = ns2.

(** The values of one namespace whose labels match a selector, as a
    bag: listed in the order of [map_to_list]. *)
Definition selected (selector : Selector) (metricMap : resourceMap)
    : list custom_metrics.MetricValue :=
  omap (λ kv : string * customMetricsStoredMetric,
          if selector (cLabels kv.2) then Some (cValue kv.2) else None)
       (map_to_list metricMap).

(** The ["k=v"] strings of a label map. *)
Definition label_strings (labels : Labels) : list string :=
  (λ kv : string * string, kv.1 +:+ "=" +:+ kv.2) <$> map_to_list labels.

(** ** pkg/collector *)

(** *** Results, errors and the world the collectors act on *)

(** A Go [(T, error)] result; an error is kept as its message. *)
Inductive result (A : Type) : Type :=
| Ok (a : A)
| Err (msg : string).
Arguments Ok {A} a.
Arguments Err {A} msg.

(** [float64] values, with the operations [GetMetrics] uses: the
    conversion from an integer, the division, and the conversion back
    to [int64], which drops the fraction. *)
Definition float64 := spec_float.

Definition float64_of_int (z : Z) : float64 := binary_normalize 53 1024 z 0 false.

Definition float64_div (x y : float64) : float64 := SFdiv 53 1024 x y.

Definition int64_min : Z := - 2 ^ 63.
Definition int64_max : Z := 2 ^ 63 - 1.

(** The integer part of the finite float [m * 2^e]. *)
Definition integer_part (m : positive) (e : Z) : Z :=
  if 0 <=? e then Z.pos m * 2 ^ e else Z.pos m / 2 ^ (- e).

(** [int64(f)]: the fraction is dropped.  Where [f] is NaN, infinite
    or out of range the language leaves the result to the
    implementation; amd64 gives the least [int64]. *)
Definition int64_of_float64 (f : float64) : Z :=
  match f with
  | S754_zero _ => 0
  | S754_finite s m e =>
      let v := if s then - integer_part m e else integer_part m e in
      if (int64_min <=? v) && (v <=? int64_max) then v else int64_min
  | S754_infinity _ | S754_nan => int64_min
  end.

(** [int64(float64(milli) / float64(replicas))] *)
Definition average_milli (milli replicas : Z) : Z :=
  int64_of_float64 (float64_div (float64_of_int milli) (float64_of_int replicas)).

(** *** Kubernetes objects, as far as the collectors read them *)

Record CrossVersionObjectReference := {
  TargetKind : string;
  TargetName : string
}.

Record HorizontalPodAutoscaler := {
  HPANamespace : string;
  ScaleTargetRef : CrossVersionObjectReference
}.

Record IngressRule := { Host : string }.

Record Ingress := { Rules : list IngressRule }.

(** Modelled from the spec: the [MetricConfig] struct of
    [pkg/collector], whose declaration is not among the sources; the
    fields are the ones the collectors read and write, [Name], [Type]
    and [Labels] with the prefix [Config]. *)
Record MetricConfig := {
  ConfigName : string;
  ConfigType : MetricSourceType;
  ObjectReference : custom_metrics.ObjectReference;
  Config : gmap string string;
  ConfigLabels : Labels;
  PerReplica : bool
}.

Definition rpsMetricName : string := "requests-per-second".
Definition ZMONCheckMetric : string := "zmon-check".
Definition zmonCheckIDLabelKey : string := "check-id".
Definition zmonQueryLabelKey : string := "query".

Definition double_quote : string := String (Ascii.ascii_of_N 34) "".

(** [fmt.Sprintf(rpsQuery, host)] *)
Definition rpsQuery (host : string) : string :=
  "scalar(sum(rate(skipper_serve_host_duration_seconds_count{host="
    +:+ double_quote +:+ host +:+ double_quote +:+ "}[1m])))".

(** [strings.Replace(s, ".", "_", -1)]: every dot becomes an underscore. *)
Fixpoint replace_dots (s : string) : string :=
  match s with
  | EmptyString => EmptyString
  | String c rest =>
      String (if decide (c = Ascii.ascii_of_N 46) then Ascii.ascii_of_N 95 else c)
             (replace_dots rest)
  end.

Section collector.
(** The state of everything outside the process: the cluster, the
    backends, the clock.  A call reads and may change it. *)
Variable World : Type.

Definition M (A : Type) : Type := World → result A * World.

Definition ret {A} (a : A) : M A := λ w, (Ok a, w).
Definition fail {A} (msg : string) : M A := λ w, (Err msg, w).
Definition bind {A B} (m : M A) (k : A → M B) : M B :=
  λ w, match m w with
       | (Ok a, w') => k a w'
       | (Err e, w') => (Err e, w')
       end.

Notation "x ←← m ;; k" := (bind m (λ x, k))
  (at level 100, m at next level, right associativity).

(** The [Collector] interface. *)
Record Collector := {
  GetMetrics : M (list CollectedMetric);
  Interval : Duration
}.

(** The [CollectorPlugin] interface: its one method, [NewCollector]. *)
Definition CollectorPlugin : Type :=
  HorizontalPodAutoscaler → MetricConfig → Duration → result Collector.

(** [kubernetes.Interface], as far as the collectors call it: [Get] on
    ingresses, and the ready replicas of a deployment or stateful set
    that [Get] returns. *)
Record Client := {
  GetIngress : string → string → M Ingress;
  DeploymentReadyReplicas : string → string → M Z;
  StatefulSetReadyReplicas : string → string → M Z
}.

(** *** The ZMON collector *)

(** The fields of [ZMONCollector] carry the prefix [zmon_]; the token
    source, which no method reads, is left out, and the endpoint URL
    is kept as a string. *)
Record ZMONCollector := {
  zmon_endpoint : string;
  zmon_interval : Duration;
  zmon_checkID : string;
  zmon_query : string;
  zmon_labels : Labels;
  zmon_metricName : string;
  zmon_metricType : MetricSourceType
}.

Definition NewZMONCollector (endpoint : string) (config : MetricConfig)
    (interval : Duration) : result ZMONCollector :=
  match ConfigLabels config !! zmonCheckIDLabelKey with
  | None => Err "ZMON check ID not specified on metric"
  | Some checkID =>
      match ConfigLabels config !! zmonQueryLabelKey with
      | None => Err "ZMON query not specified on metric"
      | Some query =>
          Ok {| zmon_endpoint := endpoint;
                zmon_interval := interval;
                zmon_checkID := checkID;
                zmon_query := query;
                zmon_metricName := ConfigName config;
                zmon_metricType := ConfigType config;
                zmon_labels := ConfigLabels config |}
      end
  end.

(** [ZMONCollector.GetMetrics]; [now] is the reading of [time.Now()].
    The fields the literal leaves out are zero. *)
Definition ZMONCollector_GetMetrics (now : Time) (c : ZMONCollector)
    : result (list CollectedMetric) :=
  let metricValue :=
    {| Type_ := zmon_metricType c;
       External :=
         {| external_metrics.MetricName := zmon_metricName c;
            external_metrics.MetricLabels := zmon_labels c;
            external_metrics.Timestamp := now;
            external_metrics.Value := 0 |};
       Custom := custom_metrics.zero;
       CLabels := ∅ |} in
  Ok [metricValue].

(** *** The maximum-of combinator *)

(** The quantity a collected value carries, by its source kind. *)
Definition quantity_of (v : CollectedMetric) : Quantity :=
  match Type_ v with
  | ExternalMetricSourceType => external_metrics.Value (External v)
  | _ => custom_metrics.Value (Custom v)
  end.

(** Modelled from the spec: the gathering loop of the maximum-of
    combinator, whose source is not among the files.  It invokes every
    delegate in order and collects all returned values; an error from
    a delegate ends it at once. *)
Fixpoint collect_all (collectors : list Collector) : M (list CollectedMetric) :=
  match collectors with
  | [] => ret []
  | c :: rest =>
      values ←← GetMetrics c;;
      more ←← collect_all rest;;
      ret (values ++ more)
  end.

(** Modelled from the spec: the choice of the maximum-of combinator,
    the value with the largest quantity, the first one met on a tie. *)
Fixpoint first_max (best : CollectedMetric) (values : list CollectedMetric)
    : CollectedMetric :=
  match values with
  | [] => best
  | v :: rest => first_max (if quantity_of best <? quantity_of v then v else best) rest
  end.

(** Modelled from the spec: [GetMetrics] of the maximum-of combinator
    (section 4.3), whose source is not among the files.  It fails if
    no delegate was configured or no delegate returns a value. *)
Definition MaxCollector_GetMetrics (collectors : list Collector)
    : M (list CollectedMetric) :=
  match collectors with
  | [] => fail "no collectors configured"
  | _ =>
      values ←← collect_all collectors;;
      match values with
      | [] => fail "no metric values returned"
      | v :: rest => ret [first_max v rest]
      end
  end.

(** Modelled from the spec: the constructor [NewMaxCollector], which
    holds an ordered list of delegates and an interval. *)
Definition NewMaxCollector (interval : Duration) (collectors : list Collector)
    : Collector :=
  {| GetMetrics := MaxCollector_GetMetrics collectors; Interval := interval |}.

(** *** The skipper collector *)

(** The fields of [SkipperCollector] carry the prefix [skipper_]. *)
Record SkipperCollector := {
  skipper_client : Client;
  skipper_metricName : string;
  skipper_objectReference : custom_metrics.ObjectReference;
  skipper_hpa : HorizontalPodAutoscaler;
  skipper_interval : Duration;
  skipper_plugin : CollectorPlugin;
  skipper_config : MetricConfig
}.

Definition NewSkipperCollector (client : Client) (plugin : CollectorPlugin)
    (hpa : HorizontalPodAutoscaler) (config : MetricConfig) (interval : Duration)
    : SkipperCollector :=
  {| skipper_client := client;
     skipper_objectReference := ObjectReference config;
     skipper_hpa := hpa;
     skipper_metricName := ConfigName config;
     skipper_interval := interval;
     skipper_plugin := plugin;
     skipper_config := config |}.

(** The configuration handed to the delegate plugin for one host: the
    copy of [c.config] with [Config] replaced by the query for the
    host and [PerReplica] cleared. *)
Definition host_config (config : MetricConfig) (rule : IngressRule) : MetricConfig :=
  let host := replace_dots (Host rule) in
  {| ConfigName := ConfigName config;
     ConfigType := ConfigType config;
     ObjectReference := ObjectReference config;
     Config := {[ "query" := rpsQuery host ]};
     ConfigLabels := ConfigLabels config;
     PerReplica := false |}.

(** The loop of [getCollector]: one delegate per rule, appended in
    order; the first error of the plugin ends it. *)
Fixpoint host_collectors (c : SkipperCollector) (rules : list IngressRule)
    (collectors : list Collector) : result (list Collector) :=
  match rules with
  | [] => Ok collectors
  | rule :: rest =>
      match skipper_plugin c (skipper_hpa c) (host_config (skipper_config c) rule)
                           (skipper_interval c) with
      | Err e => Err e
      | Ok collector => host_collectors c rest (collectors ++ [collector])
      end
  end.

Definition no_hosts_error (ref : custom_metrics.ObjectReference) : string :=
  "no hosts defined on ingress " +:+ custom_metrics.Namespace ref +:+ "/"
    +:+ custom_metrics.Name ref +:+ ", unable to create collector".

Definition getCollector (c : SkipperCollector) : M Collector :=
  ingress ←← GetIngress (skipper_client c)
               (custom_metrics.Namespace (skipper_objectReference c))
               (custom_metrics.Name (skipper_objectReference c));;
  match host_collectors c (Rules ingress) [] with
  | Err e => fail e
  | Ok collectors =>
      if decide (1 < length collectors)%nat then
        ret (NewMaxCollector (skipper_interval c) collectors)
      else
        match collectors with
        | [collector] => ret collector
        | _ => fail (no_hosts_error (skipper_objectReference c))
        end
  end.

Definition targetRefReplicas (client : Client) (hpa : HorizontalPodAutoscaler) : M Z :=
  let kind := TargetKind (ScaleTargetRef hpa) in
  if decide (kind = "Deployment") then
    DeploymentReadyReplicas client (HPANamespace hpa) (TargetName (ScaleTargetRef hpa))
  else if decide (kind = "StatefulSet") then
    StatefulSetReadyReplicas client (HPANamespace hpa) (TargetName (ScaleTargetRef hpa))
  else ret 0.

Definition bad_count_error (n : nat) : string :=
  "expected to only get one metric value, got " +:+ pretty n.

Definition replicas_error (replicas : Z) : string :=
  "unable to get average value for " +:+ pretty replicas +:+ " replicas".

(** [value.Custom.Value = q] on a copy of [value]. *)
Definition with_custom_value (value : CollectedMetric) (q : Quantity) : CollectedMetric :=
  {| Type_ := Type_ value;
     Custom :=
       {| custom_metrics.DescribedObject := custom_metrics.DescribedObject (Custom value);
          custom_metrics.MetricName := custom_metrics.MetricName (Custom value);
          custom_metrics.Timestamp := custom_metrics.Timestamp (Custom value);
          custom_metrics.Value := q |};
     External := External value;
     CLabels := CLabels value |}.

Definition SkipperCollector_GetMetrics (c : SkipperCollector)
    : M (list CollectedMetric) :=
  collector ←← getCollector c;;
  values ←← GetMetrics collector;;
  match values with
  | [value] =>
      replicas ←← targetRefReplicas (skipper_client c) (skipper_hpa c);;
      if decide (replicas < 1) then fail (replicas_error replicas)
      else
        let avgValue := average_milli (custom_metrics.Value (Custom value)) replicas in
        ret [with_custom_value value avgValue]
  | _ => fail (bad_count_error (length values))
  end.

(** The delegates of a list all succeed when invoked in order from
    one world, each giving its values and the world for the next. *)
Inductive runs : list Collector → World → list (list CollectedMetric) → World → Prop :=
| runs_nil w : runs [] w [] w
| runs_cons c cs w values w1 rest w2 :
    GetMetrics c w = (Ok values, w1) →
    runs cs w1 rest w2 →
    runs (c :: cs) w (values :: rest) w2.

(** A plugin builds the delegates of a list of rules, one per rule and
    in order. *)
Definition builds (c : SkipperCollector) (rules : list IngressRule)
    (collectors : list Collector) : Prop :=
  Forall2 (λ rule collector,
             skipper_plugin c (skipper_hpa c) (host_config (skipper_config c) rule)
                            (skipper_interval c) = Ok collector)
          rules collectors.
End collector.

Arguments ret {World A} a.
Arguments fail {World A} msg.
Arguments bind {World A B} m k.
Arguments GetMetrics {World} c.
Arguments Interval {World} c.
Arguments collect_all {World} collectors.
Arguments MaxCollector_GetMetrics {World} collectors.
Arguments NewMaxCollector {World} interval collectors.
Arguments getCollector {World} c.
Arguments targetRefReplicas {World} client hpa.
Arguments SkipperCollector_GetMetrics {World} c.
Arguments NewSkipperCollector {World} client plugin hpa config interval.
Arguments host_collectors {World} c rules collectors.
Arguments runs {World}.
Arguments GetIngress {World} c.
Arguments DeploymentReadyReplicas {World} c.
Arguments StatefulSetReadyReplicas {World} c.
Arguments skipper_client {World} s.
Arguments skipper_metricName {World} s.
Arguments skipper_objectReference {World} s.
Arguments skipper_hpa {World} s.
Arguments skipper_interval {World} s.
Arguments skipper_plugin {World} s.
Arguments skipper_config {World} s.
Arguments builds {World} c rules collectors.

(** *** Sample delegates *)

(** A world that records which delegates were invoked, in order. *)
Definition Trace := list string.

(** A delegate that logs its name and returns a fixed result. *)
Definition logged (name : string) (r : result (list CollectedMetric))
    : Collector Trace :=
  {| GetMetrics := λ w, (r, w ++ [name]); Interval := 0 |}.

(** A custom value of a given quantity for a named host. *)
Definition host_value (name : string) (q : Quantity) : CollectedMetric :=
  {| Type_ := ObjectMetricSourceType;
     Custom := sample_value "Ingress" "default" name q;
     External := external_metrics.zero;
     CLabels := ∅ |}.

(** A cluster with one ingress of the given hosts and three ready
    replicas behind every deployment and stateful set. *)
Definition sample_client (hosts : list string) : Client Trace :=
  {| GetIngress := λ _ _ w, (Ok {| Rules := (λ h, {| Host := h |}) <$> hosts |}, w ++ ["ingress"]);
     DeploymentReadyReplicas := λ _ _ w, (Ok 3, w ++ ["deployment"]);
     StatefulSetReadyReplicas := λ _ _ w, (Ok 3, w ++ ["statefulset"]) |}.

(** A delegate plugin whose collectors report 900 under their query. *)
Definition sample_plugin : CollectorPlugin Trace :=
  λ _ config _,
    match Config config !! "query" with
    | Some query => Ok (logged query (Ok [host_value query 900]))
    | None => Err "query not specified"
    end.

Definition sample_config : MetricConfig :=
  {| ConfigName := rpsMetricName;
     ConfigType := ObjectMetricSourceType;
     ObjectReference :=
       {| custom_metrics.Kind := "Ingress";
          custom_metrics.Namespace := "default";
          custom_metrics.Name := "web" |};
     Config := ∅;
     ConfigLabels := ∅;
     PerReplica := true |}.

Definition sample_hpa (kind : string) : HorizontalPodAutoscaler :=
  {| HPANamespace := "default";
     ScaleTargetRef := {| TargetKind := kind; TargetName := "web" |} |}.

Definition sample_skipper (hosts : list string) (kind : string) : SkipperCollector Trace :=
  NewSkipperCollector (sample_client hosts) sample_plugin (sample_hpa kind) sample_config 60.

(** ** pkg/provider: the listing and external read operations *)

Module provider.
Record CustomMetricInfo := {
  GroupResource : schema.GroupResource;
  Namespaced : bool;
  Metric : string
}.

Record ExternalMetricInfo := {
  EMetric : string;
  ELabels : Labels
}.
End provider.

Section store_listing.
Context {RO : RangeOrder}.

(** [ListAllMetrics]: one info per namespace map, appended in range
    order. *)
Definition ListAllMetrics (s : MetricStore) : list provider.CustomMetricInfo :=
  range (customMetricsStore s) ≫= (λ mg,
    range mg.2 ≫= (λ gn,
      (λ nr : string * resourceMap,
         {| provider.GroupResource := gn.1;
            provider.Namespaced := bool_decide (nr.1 ≠ "");
            provider.Metric := mg.1 |}) <$> range gn.2)).

(** [GetExternalMetric]; the error it returns is always nil, the list
    is never nil.  The namespace is not read. *)
Definition GetExternalMetric (namespace metricName : string) (selector : Selector)
    (s : MetricStore) : result (list external_metrics.ExternalMetricValue) :=
  Ok match externalMetricsStore s !! metricName with
     | Some metrics =>
         omap (λ kv : string * externalMetricsStoredMetric,
                 if selector (external_metrics.MetricLabels (eValue kv.2))
                 then Some (eValue kv.2) else None)
              (range metrics)
     | None => []
     end.

(** [ListAllExternalMetrics]: one info per stored external metric. *)
Definition ListAllExternalMetrics (s : MetricStore) : list provider.ExternalMetricInfo :=
  range (externalMetricsStore s) ≫= (λ nm,
    (λ km : string * externalMetricsStoredMetric,
       {| provider.EMetric := nm.1;
          provider.ELabels := external_metrics.MetricLabels (eValue km.2) |})
    <$> range nm.2).
End store_listing.

(** Every metric name of a store is filed under one group-resource. *)
Definition one_group (s : MetricStore) : Prop :=
  ∀ m groups g1 g2,
    customMetricsStore s !! m = Some groups →
    is_Some (groups !! g1) → is_Some (groups !! g2) → g1 = g2.

(** ** pkg/collector: the plugins *)

Definition not_supported_error (name : string) : string :=
  "metric '" +:+ name +:+ "' not supported".

(** [ZMONCollectorPlugin]; the token source is not read by any method
    here and is left out. *)
Record ZMONCollectorPlugin := { zmon_plugin_endpoint : string }.

(** [NewZMONCollectorPlugin]; [url_Parse] stands for [url.Parse], with
    the parsed URL kept as a string. *)
Definition NewZMONCollectorPlugin (url_Parse : string → result string)
    (endpoint : string) : result ZMONCollectorPlugin :=
  match url_Parse endpoint with
  | Err e => Err e
  | Ok endpointURL => Ok {| zmon_plugin_endpoint := endpointURL |}
  end.

(** [ZMONCollectorPlugin.NewCollector] *)
Definition ZMONCollectorPlugin_NewCollector (c : ZMONCollectorPlugin)
    (hpa : HorizontalPodAutoscaler) (config : MetricConfig) (interval : Duration)
    : result ZMONCollector :=
  if decide (ConfigName config = ZMONCheckMetric) then
    NewZMONCollector (zmon_plugin_endpoint c) config interval
  else Err (not_supported_error (ConfigName config)).

Definition ZMONCollector_Interval (c : ZMONCollector) : Duration := zmon_interval c.

Definition NakadiUnconsumedEventsMetric : string := "nakadi-unconsumed-events".
Definition NakadiConsumerLagSeconds : string := "nakadi-consumer-lag-seconds".
Definition nakadiSubscriptionIDLabelKey : string := "subscription-id".
Definition nakadiEventTypeLabelKey : string := "event-type".

(** [NakadiCollectorPlugin] and [NakadiStatsCollector], without the
    token source; the fields carry the prefix [nakadi_]. *)
Record NakadiCollectorPlugin := { nakadi_plugin_endpoint : string }.

Record NakadiStatsCollector := {
  nakadi_endpoint : string;
  nakadi_interval : Duration;
  nakadi_subscriptionID : string;
  nakadi_eventType : string;
  nakadi_labels : Labels;
  nakadi_metricName : string;
  nakadi_metricType : MetricSourceType
}.

Definition NewNakadiStatsCollector (endpoint : string) (config : MetricConfig)
    (interval : Duration) : result NakadiStatsCollector :=
  match ConfigLabels config !! nakadiSubscriptionIDLabelKey with
  | None => Err "nakadi subscription id not specified on metric"
  | Some subscriptionID =>
      match ConfigLabels config !! nakadiEventTypeLabelKey with
      | None => Err "nakadi event type not specified on metric"
      | Some eventType =>
          Ok {| nakadi_endpoint := endpoint;
                nakadi_interval := interval;
                nakadi_subscriptionID := subscriptionID;
                nakadi_eventType := eventType;
                nakadi_metricName := ConfigName config;
                nakadi_metricType := ConfigType config;
                nakadi_labels := ConfigLabels config |}
      end
  end.

(** [NakadiCollectorPlugin.NewCollector] *)
Definition NakadiCollectorPlugin_NewCollector (c : NakadiCollectorPlugin)
    (hpa : HorizontalPodAutoscaler) (config : MetricConfig) (interval : Duration)
    : result NakadiStatsCollector :=
  if decide (ConfigName config = NakadiUnconsumedEventsMetric ∨
             ConfigName config = NakadiConsumerLagSeconds) then
    NewNakadiStatsCollector (nakadi_plugin_endpoint c) config interval
  else Err (not_supported_error (ConfigName config)).

Definition NakadiStatsCollector_Interval (c : NakadiStatsCollector) : Duration :=
  nakadi_interval c.

Section skipper_plugin.
Variable World : Type.

(** [SkipperCollectorPlugin]: the cluster client and the delegate
    plugin. *)
Record SkipperCollectorPlugin := {
  skipper_plugin_client : Client World;
  skipper_plugin_plugin : CollectorPlugin World
}.

Definition NewSkipperCollectorPlugin (client : Client World)
    (prometheusPlugin : CollectorPlugin World) : result SkipperCollectorPlugin :=
  Ok {| skipper_plugin_client := client; skipper_plugin_plugin := prometheusPlugin |}.

(** [SkipperCollectorPlugin.NewCollector] *)
Definition SkipperCollectorPlugin_NewCollector (c : SkipperCollectorPlugin)
    (hpa : HorizontalPodAutoscaler) (config : MetricConfig) (interval : Duration)
    : result (SkipperCollector World) :=
  if decide (ConfigName config = rpsMetricName) then
    Ok (NewSkipperCollector (skipper_plugin_client c) (skipper_plugin_plugin c)
                            hpa config interval)
  else Err (not_supported_error (ConfigName config)).

Definition SkipperCollector_Interval (c : SkipperCollector World) : Duration :=
  skipper_interval c.
End skipper_plugin.

Arguments skipper_plugin_client {World} s.
Arguments skipper_plugin_plugin {World} s.
Arguments NewSkipperCollectorPlugin {World} client prometheusPlugin.
Arguments SkipperCollectorPlugin_NewCollector {World} c hpa config interval.
Arguments SkipperCollector_Interval {World} c.

(** The info [ListAllMetrics] gives for the entries at a path. *)
Definition info_of (i : identity) : provider.CustomMetricInfo :=
  {| provider.GroupResource := id_group i;
     provider.Namespaced := bool_decide (id_namespace i ≠ "");
     provider.Metric := id_metric i |}.

(** *** Further sample clusters *)



(** * Properties *)

(** ** Ranging over a map *)

Section range_folds.
Context {K V : Type} `{Countable K}.
Implicit Types (m acc : gmap K V) (l : list (K * V)).

Lemma range_elem_of `{RO : RangeOrder} m k v : (k, v) ∈ range m ↔ m !! k = Some v.
Proof. rewrite (range_perm m). apply elem_of_map_to_list. Qed.

Lemma range_NoDup_fst `{RO : RangeOrder} m : NoDup (range m).*1.
Proof. rewrite (range_perm m). apply NoDup_fst_map_to_list. Qed.

Variable step : gmap K V → K * V → gmap K V.
Variable g : K → V → option V.
Hypothesis step_here : ∀ acc k v, acc !! k = Some v → step acc (k, v) !! k = g k v.
Hypothesis step_frame : ∀ acc k v k', k ≠ k' → step acc (k, v) !! k' = acc !! k'.

Lemma foldl_step_lookup l : ∀ acc,
  NoDup l.*1 →
  (∀ k v, (k, v) ∈ l → acc !! k = Some v) →
  ∀ k, foldl step acc l !! k =
       match list_to_map (M := gmap K V) l !! k with
       | Some v => g k v
       | None => acc !! k
       end.
Proof.
  induction l as [|[k0 v0] l IH]; intros acc Hnd Hin k; simpl.
  - by rewrite lookup_empty.
  - apply NoDup_cons in Hnd as [Hk0 Hnd].
    rewrite IH; [| done |].
    + destruct (decide (k0 = k)) as [->|Hne].
      * rewrite lookup_insert_eq.
        rewrite (not_elem_of_list_to_map_1 l k Hk0).
        apply step_here, Hin. left.
      * rewrite lookup_insert_ne by done.
        destruct (list_to_map l !! k); [done|]. by apply step_frame.
    + intros k1 v1 Hkv.
      rewrite step_frame.
      * apply Hin. by right.
      * intros ->. apply Hk0. apply list_elem_of_fmap. by exists (k1, v1).
Qed.

Lemma foldl_range_lookup `{RO : RangeOrder} m k :
  foldl step m (range m) !! k = m !! k ≫= g k.
Proof.
  rewrite foldl_step_lookup.
  - destruct (list_to_map (range m) !! k) as [v|] eqn:E.
    + apply elem_of_list_to_map_2, range_elem_of in E. by rewrite E.
    + destruct (m !! k) as [v|] eqn:E'; [|done].
      apply range_elem_of in E'.
      apply (elem_of_list_to_map_1 (M := gmap K)) in E'; [congruence|].
      apply range_NoDup_fst.
  - apply range_NoDup_fst.
  - intros ??. apply range_elem_of.
Qed.
End range_folds.

Section sweeps.
Context {RO : RangeOrder}.

Lemma expire_range_lookup {K V} `{Countable K} (expired : K → V → bool)
    (m : gmap K V) k :
  expire_range expired m !! k =
  m !! k ≫= (λ v, if expired k v then None else Some v).
Proof.
  unfold expire_range.
  apply (foldl_range_lookup _ (λ k1 v1, if expired k1 v1 then None else Some v1)).
  - intros acc k0 v Hk0; simpl. destruct (expired k0 v); [apply lookup_delete_eq | done].
  - intros acc k0 v k' Hne; simpl. destruct (expired k0 v); [by apply lookup_delete_ne | done].
Qed.

Lemma prune_range_lookup {K K' V} `{Countable K} `{Countable K'}
    (body : K → gmap K' V → gmap K' V) (m : gmap K (gmap K' V)) k :
  prune_range body m !! k =
  m !! k ≫= (λ v, if decide (size (body k v) = 0%nat) then None else Some (body k v)).
Proof.
  unfold prune_range.
  pose (g := λ (k1 : K) (v1 : gmap K' V),
               if decide (size (body k1 v1) = 0%nat) then None else Some (body k1 v1)).
  apply (foldl_range_lookup _ g); unfold g.
  - intros acc k0 v _; simpl. case_decide.
    + apply lookup_delete_eq.
    + apply lookup_insert_eq.
  - intros acc k0 v k' Hne; simpl. case_decide.
    + by rewrite lookup_delete_ne, lookup_insert_ne.
    + by rewrite lookup_insert_ne.
Qed.

(** What a sweep keeps is never empty. *)
Lemma prune_range_nonempty {K K' V} `{Countable K} `{Countable K'}
    (body : K → gmap K' V → gmap K' V) (m : gmap K (gmap K' V)) k v :
  prune_range body m !! k = Some v → v ≠ ∅.
Proof.
  rewrite prune_range_lookup. destruct (m !! k) as [w|]; simpl; [|done].
  case_decide as Hsz; [done|]. intros [= <-] Hempty. apply Hsz.
  by rewrite Hempty, map_size_empty.
Qed.
End sweeps.

Section RemoveExpired_facts.
Context {RO : RangeOrder}.

(** Looking below a swept level: the pruning of empty maps is not
    visible to a reader that finds nothing in an empty map anyway. *)
Lemma prune_range_lookup_below {K K' V A} `{Countable K} `{Countable K'}
    (body : K → gmap K' V → gmap K' V) (m : gmap K (gmap K' V)) k
    (f : gmap K' V → option A) :
  f ∅ = None →
  prune_range body m !! k ≫= f = m !! k ≫= (λ v, f (body k v)).
Proof.
  intros Hf. rewrite prune_range_lookup.
  destruct (m !! k) as [v|]; simpl; [|done].
  case_decide as Hsz; [|done].
  apply map_size_empty_inv in Hsz. by rewrite Hsz, Hf.
Qed.

Variable clock_c : string → schema.GroupResource → string → string → Time.
Variable clock_e : string → string → Time.

(** What the sweep leaves at a custom path: the entry that was there,
    unless its TTL lay before the clock reading taken at it. *)
Lemma RemoveExpired_lookup_custom s i :
  lookup_custom (RemoveExpired clock_c clock_e s) i =
  sm ← lookup_custom s i;
  if bool_decide (cTTL sm < clock_c (id_metric i) (id_group i) (id_namespace i) (id_name i))
  then None else Some sm.
Proof.
  destruct i as [m g ns n]. unfold lookup_custom, RemoveExpired; simpl.
  rewrite prune_range_lookup_below by done.
  destruct (customMetricsStore s !! m) as [groups|]; simpl; [|done].
  rewrite prune_range_lookup_below by done.
  destruct (groups !! g) as [namespaces|]; simpl; [|done].
  rewrite prune_range_lookup_below by done.
  destruct (namespaces !! ns) as [resources|]; simpl; [|done].
  apply expire_range_lookup.
Qed.

Lemma RemoveExpired_lookup_external s m k :
  lookup_external (RemoveExpired clock_c clock_e s) m k =
  sm ← lookup_external s m k;
  if bool_decide (eTTL sm < clock_e m k) then None else Some sm.
Proof.
  unfold lookup_external, RemoveExpired; simpl.
  rewrite prune_range_lookup_below by done.
  destruct (externalMetricsStore s !! m) as [metrics|]; simpl; [|done].
  apply expire_range_lookup.
Qed.

Lemma prune_range_inside {K K' V} `{Countable K} `{Countable K'}
    (body : K → gmap K' V → gmap K' V) (m : gmap K (gmap K' V)) k v :
  prune_range body m !! k = Some v → ∃ w, m !! k = Some w ∧ v = body k w.
Proof.
  rewrite prune_range_lookup. destruct (m !! k) as [w|]; simpl; [|done].
  case_decide; [done|]. intros [= <-]. eauto.
Qed.

Lemma RemoveExpired_no_empty_maps s :
  no_empty_maps (RemoveExpired clock_c clock_e s).
Proof.
  split; simpl.
  - intros m groups Hm. split; [by eapply prune_range_nonempty|].
    apply prune_range_inside in Hm as (groups0 & _ & ->).
    intros g namespaces Hg. split; [by eapply prune_range_nonempty|].
    apply prune_range_inside in Hg as (namespaces0 & _ & ->).
    intros ns resources Hns. by eapply prune_range_nonempty.
  - intros m metrics Hm. by eapply prune_range_nonempty.
Qed.

(** C4. After [RemoveExpired], started at time [t0] with a clock that
    does not run backwards, no custom or external entry whose TTL is
    before [t0] is left, and no map at any level of either store is
    empty. *)
Theorem RemoveExpired_postcondition (t0 : Time) s :
  (∀ m g ns n, t0 ≤ clock_c m g ns n) →
  (∀ m k, t0 ≤ clock_e m k) →
  let s' := RemoveExpired clock_c clock_e s in
  (∀ i sm, lookup_custom s' i = Some sm → ¬ cTTL sm < t0) ∧
  (∀ m k sm, lookup_external s' m k = Some sm → ¬ eTTL sm < t0) ∧
  no_empty_maps s'.
Proof.
  intros Hc He s'. split; [|split].
  - intros i sm. unfold s'. rewrite RemoveExpired_lookup_custom.
    destruct (lookup_custom s i) as [sm0|]; simpl; [|done].
    case_bool_decide as Hexp; [done|]. intros [= <-].
    specialize (Hc (id_metric i) (id_group i) (id_namespace i) (id_name i)). lia.
  - intros m k sm. unfold s'. rewrite RemoveExpired_lookup_external.
    destruct (lookup_external s m k) as [sm0|]; simpl; [|done].
    case_bool_decide as Hexp; [done|]. intros [= <-].
    specialize (He m k). lia.
  - apply RemoveExpired_no_empty_maps.
Qed.
End RemoveExpired_facts.

(** ** Inserting custom metrics *)

(** Two paths differ at the first level at which their keys differ. *)
Ltac along_path m m0 g g0 ns ns0 n n0 :=
  destruct (decide (m = m0)) as [->|]; simplify_map_eq; [|done];
  destruct (decide (g = g0)) as [->|]; simplify_map_eq; [|done];
  destruct (decide (ns = ns0)) as [->|]; simplify_map_eq; [|done];
  destruct (decide (n = n0)) as [->|]; simplify_map_eq; done.

(** Whether it returns or panics, [insertCustomMetric] leaves the new
    entry at the path of the value and every other path as it was. *)
Lemma insertCustomMetric_lookup now value labels s j :
  lookup_custom (state_after (insertCustomMetric now value labels s)) j =
  if decide (j = identity_of value)
  then Some {| cValue := value; cLabels := labels; cTTL := TTL_of now |}
  else lookup_custom s j.
Proof.
  destruct j as [m g ns n]. unfold insertCustomMetric, identity_of, lookup_custom.
  set (m0 := custom_metrics.MetricName value).
  set (g0 := groupResourceOf _). set (ns0 := custom_metrics.Namespace _).
  set (n0 := custom_metrics.Name _). simpl.
  destruct (customMetricsStore s !! m0) as [metrics|] eqn:Hm; simpl;
    [destruct (metrics !! g0) as [grp|] eqn:Hg; simpl;
       [destruct (grp !! ns0) as [r|] eqn:Hns; simpl|]|];
    (case_decide as Hj; [injection Hj as -> -> -> ->; by simplify_map_eq|]);
    along_path m m0 g g0 ns ns0 n n0.
Qed.

(** *** The entries of the store *)

Lemma elem_of_custom_entries s i sm :
  (i, sm) ∈ custom_entries s ↔ lookup_custom s i = Some sm.
Proof.
  unfold custom_entries, lookup_custom. split.
  - intros ([m groups] & Hin & Hm%elem_of_map_to_list)%list_elem_of_bind.
    apply list_elem_of_bind in Hin as ([g namespaces] & Hin & Hg%elem_of_map_to_list).
    apply list_elem_of_bind in Hin as ([ns resources] & Hin & Hns%elem_of_map_to_list).
    apply list_elem_of_fmap in Hin as ([n sm'] & [= -> ->] & Hn%elem_of_map_to_list).
    simpl in *. by rewrite Hm; simpl; rewrite Hg; simpl; rewrite Hns.
  - destruct i as [m g ns n]; simpl.
    destruct (customMetricsStore s !! m) as [groups|] eqn:Hm; simpl; [|done].
    destruct (groups !! g) as [namespaces|] eqn:Hg; simpl; [|done].
    destruct (namespaces !! ns) as [resources|] eqn:Hns; simpl; [|done].
    intros Hn.
    apply list_elem_of_bind. exists (m, groups). split; [|by apply elem_of_map_to_list].
    apply list_elem_of_bind. exists (g, namespaces). split; [|by apply elem_of_map_to_list].
    apply list_elem_of_bind. exists (ns, resources). split; [|by apply elem_of_map_to_list].
    apply list_elem_of_fmap. exists (n, sm). split; [done|by apply elem_of_map_to_list].
Qed.

Lemma fmap_fst_bind {A I B} (f : A → list (I * B)) (l : list A) :
  (l ≫= f).*1 = l ≫= (λ a, (f a).*1).
Proof. induction l as [|x l IH]; csimpl; [done|]. by rewrite fmap_app, IH. Qed.

(** Entries gathered below distinct keys of a map have distinct paths,
    as long as each path records the key it was gathered under. *)
Lemma NoDup_fst_bind_map_to_list {K V I B} `{Countable K} (m : gmap K V)
    (f : K * V → list (I * B)) (key : I → K) :
  (∀ kv ib, ib ∈ f kv → key ib.1 = kv.1) →
  (∀ kv, kv ∈ map_to_list m → NoDup (f kv).*1) →
  NoDup (map_to_list m ≫= f).*1.
Proof.
  intros Hkey Hnd. rewrite fmap_fst_bind.
  apply NoDup_bind; [|done|apply NoDup_map_to_list].
  intros [k1 v1] [k2 v2] i H1 H2
    ([i1 b1] & -> & Hi1)%list_elem_of_fmap ([i2 b2] & Heq & Hi2)%list_elem_of_fmap.
  simpl in *. subst i2.
  apply Hkey in Hi1, Hi2. simpl in *.
  assert (k1 = k2) as -> by congruence.
  apply elem_of_map_to_list in H1, H2. congruence.
Qed.

Lemma NoDup_custom_entries s : NoDup (custom_entries s).*1.
Proof.
  unfold custom_entries.
  apply (NoDup_fst_bind_map_to_list _ _ id_metric).
  { intros [m groups] [i sm] ([g namespaces] & Hin & _)%list_elem_of_bind.
    apply list_elem_of_bind in Hin as ([ns resources] & Hin & _).
    by apply list_elem_of_fmap in Hin as ([n sm'] & [= -> ->] & _). }
  intros [m groups] _; simpl.
  apply (NoDup_fst_bind_map_to_list _ _ id_group).
  { intros [g namespaces] [i sm] ([ns resources] & Hin & _)%list_elem_of_bind.
    by apply list_elem_of_fmap in Hin as ([n sm'] & [= -> ->] & _). }
  intros [g namespaces] _; simpl.
  apply (NoDup_fst_bind_map_to_list _ _ id_namespace).
  { intros [ns resources] [i sm] Hin.
    by apply list_elem_of_fmap in Hin as ([n sm'] & [= -> ->] & _). }
  intros [ns resources] _; simpl.
  rewrite <- list_fmap_compose.
  apply NoDup_fmap_2_strong; [|apply NoDup_map_to_list].
  intros [n1 sm1] [n2 sm2] H1 H2 [= ->].
  apply elem_of_map_to_list in H1, H2. congruence.
Qed.

Lemma filter_fst_absent {I B} `{EqDecision I} (l : list (I * B)) (i : I) :
  i ∉ l.*1 → filter (λ e : I * B, e.1 = i) l = [].
Proof.
  induction l as [|[j b] l IH]; csimpl; [done|].
  intros [Hne Hl]%not_elem_of_cons. rewrite filter_cons_False by (simpl; congruence).
  by apply IH.
Qed.

Lemma filter_fst_length {I B} `{EqDecision I} (l : list (I * B)) (i : I) :
  NoDup l.*1 → (length (filter (λ e : I * B, e.1 = i) l) ≤ 1)%nat.
Proof.
  induction l as [|[j b] l IH]; csimpl; [intros _; lia|].
  intros [Hj Hnd]%NoDup_cons. rewrite filter_cons; simpl.
  case_decide as Hji; [|by apply IH].
  subst j. rewrite filter_fst_absent by done. simpl; lia.
Qed.

Lemma filter_fst_present {I B} `{EqDecision I} (l : list (I * B)) (i : I) (b : B) :
  (i, b) ∈ l → (1 ≤ length (filter (λ e : I * B, e.1 = i) l))%nat.
Proof.
  intros Hin.
  assert ((i, b) ∈ filter (λ e : I * B, e.1 = i) l) as Hf
    by (by apply list_elem_of_filter).
  destruct (filter _ l); [by apply elem_of_nil in Hf | simpl; lia].
Qed.

(** At most one entry sits at any identity, and exactly one where a
    lookup finds something. *)
Lemma entries_at_le_1 s i : (entries_at s i ≤ 1)%nat.
Proof. apply filter_fst_length, NoDup_custom_entries. Qed.

Lemma entries_at_present s i sm :
  lookup_custom s i = Some sm → entries_at s i = 1%nat.
Proof.
  intros Hl%elem_of_custom_entries.
  pose proof (entries_at_le_1 s i).
  pose proof (filter_fst_present _ _ _ Hl). unfold entries_at in *. lia.
Qed.

(** C3. Re-inserting a custom metric at an identity that is present
    returns normally, replaces the stored value and labels, stamps the
    expiry fifteen minutes after the clock reading of the insert, and
    leaves a single entry at that identity; and after any run of
    inserts into a new store no identity holds more than one entry. *)
Theorem reinsert_overwrites {RO : RangeOrder} now value labels s old :
  lookup_custom s (identity_of value) = Some old →
  (∃ s', insertCustomMetric now value labels s = Returned s' ∧
     lookup_custom s' (identity_of value) =
       Some {| cValue := value; cLabels := labels; cTTL := now + 15 * Minute |} ∧
     entries_at s' (identity_of value) = 1%nat ∧
     ∀ j, j ≠ identity_of value → lookup_custom s' j = lookup_custom s j) ∧
  ∀ ops i, (entries_at (run_inserts ops NewMetricStore) i ≤ 1)%nat.
Proof.
  intros Hold. split; [|intros; apply entries_at_le_1].
  pose proof (insertCustomMetric_lookup now value labels s) as Hlk.
  assert (∃ s', insertCustomMetric now value labels s = Returned s') as [s' Hs'].
  { revert Hold. unfold insertCustomMetric, lookup_custom, identity_of; simpl.
    destruct (customMetricsStore s !! _) as [metrics|]; simpl; [|done].
    destruct (metrics !! _) as [grp|]; simpl; [|done].
    destruct (grp !! _) as [r|]; simpl; [|done]. eauto. }
  rewrite Hs' in Hlk; simpl in Hlk.
  exists s'. split; [done|]. split; [|split].
  - by rewrite Hlk, decide_True.
  - eapply entries_at_present. by rewrite Hlk, decide_True.
  - intros j Hj. by rewrite Hlk, decide_False.
Qed.

(** [insertCustomMetric] panics exactly when the metric name is known
    and no namespace map exists yet for the group-resource and
    namespace of the value. *)
Lemma insertCustomMetric_returns_iff now value labels s :
  returns (insertCustomMetric now value labels s) = false ↔
  ∃ metrics, customMetricsStore s !! custom_metrics.MetricName value = Some metrics ∧
    (metrics !! id_group (identity_of value)) ≫=
      (λ g, g !! id_namespace (identity_of value)) = None.
Proof.
  unfold insertCustomMetric, identity_of; simpl.
  destruct (customMetricsStore s !! _) as [metrics|]; simpl.
  - destruct (metrics !! _) as [grp|] eqn:Hg; simpl.
    + destruct (grp !! _) as [r|] eqn:Hr; simpl.
      * split; [done|]. intros (? & [= <-] & Hx). by rewrite Hg in Hx; simpl in Hx; simplify_eq.
      * split; [|done]. intros _. eexists; split; [done|]. by rewrite Hg.
    + split; [|done]. intros _. eexists; split; [done|]. by rewrite Hg.
  - split; [done|]. by intros (? & ? & _).
Qed.

(** C2, at a failing input: with [requests-per-second] stored for pod
    [ns1/pod-a], inserting the same metric for pod [ns2/pod-b] panics
    on the assignment into the nil namespace map. *)
Theorem Insert_new_namespace_panics {RO : RangeOrder} :
  ∃ s', Insert 1 (sample_metric "Pod" "ns2" "pod-b" 7) store_with_pod_a
        = Panicked nil_map_assignment s'.
Proof. eexists. vm_compute. reflexivity. Qed.

(** C1, at a failing input: with [requests-per-second] stored for pod
    [ns1/pod-a], inserting the same metric for ingress [ns1/web] does
    not return, so no lookup follows it. *)
Theorem Insert_new_group_does_not_return {RO : RangeOrder} :
  ¬ ∃ s', Insert 1 (sample_metric "Ingress" "ns1" "web" 7) store_with_pod_a
          = Returned s'.
Proof. intros [s' Hs']. vm_compute in Hs'. discriminate Hs'. Qed.

(** *** Reading back what was inserted *)

(** With a namespace given, [GetMetricsByName] is the lookup along the
    path. *)
Lemma GetMetricsByName_exact {RO : RangeOrder} m g ns n s :
  ns ≠ "" →
  GetMetricsByName m g ns n s =
  cValue <$> lookup_custom s {| id_metric := m; id_group := g; id_namespace := ns; id_name := n |}.
Proof.
  intros Hns. unfold GetMetricsByName, lookup_custom; simpl.
  destruct (customMetricsStore s !! m) as [groups|]; simpl; [|done].
  destruct (groups !! g) as [namespaces|]; simpl; [|done].
  rewrite decide_False by done.
  by destruct (namespaces !! ns).
Qed.

(** The state an insert leaves behind answers an exact lookup with the
    inserted value. *)
Lemma insert_then_GetMetricsByName {RO : RangeOrder} now value labels s :
  id_namespace (identity_of value) ≠ "" →
  GetMetricsByName (id_metric (identity_of value)) (id_group (identity_of value))
    (id_namespace (identity_of value)) (id_name (identity_of value))
    (state_after (insertCustomMetric now value labels s)) = Some value.
Proof.
  intros Hns. rewrite GetMetricsByName_exact by done.
  change {| id_metric := _; id_group := _; id_namespace := _; id_name := _ |}
    with (identity_of value).
  by rewrite insertCustomMetric_lookup, decide_True.
Qed.

Lemma one_namespace_insertCustomMetric now value labels s s' :
  one_namespace s → insertCustomMetric now value labels s = Returned s' →
  one_namespace s'.
Proof.
  unfold insertCustomMetric.
  set (m0 := custom_metrics.MetricName value).
  set (g0 := groupResourceOf _). set (ns0 := custom_metrics.Namespace _).
  set (n0 := custom_metrics.Name _).
  intros Hone Hret m groups g namespaces ns1 ns2 Hm' Hg' H1 H2.
  destruct (customMetricsStore s !! m0) as [metrics|] eqn:Hm.
  - destruct (metrics !! g0) as [grp|] eqn:Hg; [|done].
    destruct (grp !! ns0) as [r|] eqn:Hns; [|done].
    injection Hret as <-. simpl in Hm'.
    destruct (decide (m = m0)) as [->|];
      [rewrite lookup_insert_eq in Hm'; injection Hm' as <-
      |rewrite lookup_insert_ne in Hm' by done; by eapply Hone].
    destruct (decide (g = g0)) as [->|];
      [rewrite lookup_insert_eq in Hg'; injection Hg' as <-
      |rewrite lookup_insert_ne in Hg' by done; by eapply Hone].
    apply (Hone m0 metrics g0 grp); [done..| |].
    + destruct (decide (ns1 = ns0)) as [->|]; [eauto|].
      by rewrite lookup_insert_ne in H1.
    + destruct (decide (ns2 = ns0)) as [->|]; [eauto|].
      by rewrite lookup_insert_ne in H2.
  - injection Hret as <-. simpl in Hm'.
    destruct (decide (m = m0)) as [->|];
      [rewrite lookup_insert_eq in Hm'; injection Hm' as <-
      |rewrite lookup_insert_ne in Hm' by done; by eapply Hone].
    apply lookup_singleton_Some in Hg' as [-> <-].
    destruct H1 as [? [-> _]%lookup_singleton_Some].
    by destruct H2 as [? [-> _]%lookup_singleton_Some].
Qed.

Lemma one_namespace_reachable {RO : RangeOrder} s : reachable s → one_namespace s.
Proof.
  induction 1 as [|now value s s' _ IH Hins|clock_c clock_e s _ IH].
  - intros m groups g namespaces ns1 ns2 Hm. simpl in Hm. by rewrite lookup_empty in Hm.
  - unfold Insert in Hins. destruct (Type_ value).
    + by eapply one_namespace_insertCustomMetric.
    + by eapply one_namespace_insertCustomMetric.
    + injection Hins as <-. unfold insertExternalMetric.
      by destruct (externalMetricsStore s !! _).
    + by injection Hins as <-.
  - intros m groups g namespaces ns1 ns2 Hm Hg H1 H2; simpl in Hm.
    apply prune_range_inside in Hm as (groups0 & Hm & ->).
    apply prune_range_inside in Hg as (namespaces0 & Hg & ->).
    apply (IH m groups0 g namespaces0); [done..| |].
    + destruct H1 as [r H1]. apply prune_range_inside in H1 as (? & ? & _). eauto.
    + destruct H2 as [r H2]. apply prune_range_inside in H2 as (? & ? & _). eauto.
Qed.

(** A scan over a map whose keys all agree visits one entry. *)
Lemma first_named_one_namespace {RO : RangeOrder} (namespaces : namespaceMap) ns r n :
  (∀ ns', is_Some (namespaces !! ns') → ns' = ns) →
  namespaces !! ns = Some r →
  first_named n (range namespaces) = cValue <$> r !! n.
Proof.
  intros Hone Hns.
  assert (range namespaces = [(ns, r)]) as ->.
  { pose proof (range_NoDup_fst namespaces) as Hnd.
    assert (∀ kv, kv ∈ range namespaces → kv = (ns, r)) as Hall.
    { intros [k v] Hkv%range_elem_of.
      assert (k = ns) as -> by (apply Hone; eauto). congruence. }
    apply range_elem_of in Hns.
    destruct (range namespaces) as [|kv1 [|kv2 l]].
    - by apply elem_of_nil in Hns.
    - f_equal. apply Hall. left.
    - exfalso. apply NoDup_cons in Hnd as [Hnd _]. apply Hnd.
      rewrite (Hall kv1), (Hall kv2); [left|right; left|left]. }
  simpl. by destruct (r !! n).
Qed.

(** In a reachable store, an insert that returns is read back by
    [GetMetricsByName] at the same identity, whatever the namespace. *)
Lemma returned_insert_read_back {RO : RangeOrder} now value labels s s' :
  reachable s →
  insertCustomMetric now value labels s = Returned s' →
  GetMetricsByName (id_metric (identity_of value)) (id_group (identity_of value))
    (id_namespace (identity_of value)) (id_name (identity_of value)) s' = Some value.
Proof.
  intros Hreach Hret.
  pose proof (insertCustomMetric_lookup now value labels s (identity_of value)) as Hlk.
  rewrite Hret, decide_True in Hlk by done. simpl in Hlk.
  destruct (decide (id_namespace (identity_of value) = "")) as [Hns|Hns].
  - pose proof (one_namespace_insertCustomMetric _ _ _ _ _
                  (one_namespace_reachable _ Hreach) Hret) as Hone.
    revert Hlk. unfold GetMetricsByName, lookup_custom.
    destruct (customMetricsStore s' !! _) as [groups|] eqn:Hm; simpl; [|done].
    destruct (groups !! _) as [namespaces|] eqn:Hg; simpl; [|done].
    destruct (namespaces !! _) as [r|] eqn:Hr; simpl; [|done].
    intros Hn. rewrite decide_True by done.
    erewrite first_named_one_namespace; [by rewrite Hn| |done].
    intros ns' Hns'. eapply Hone; eauto.
  - rewrite GetMetricsByName_exact by done.
    change {| id_metric := _; id_group := _; id_namespace := _; id_name := _ |}
      with (identity_of value).
    by rewrite Hlk.
Qed.

(** ** Selector queries *)

Lemma bind_Permutation_ext {A B} (f g : A → list B) (l1 l2 : list A) :
  l1 ≡ₚ l2 → (∀ x, f x ≡ₚ g x) → l1 ≫= f ≡ₚ l2 ≫= g.
Proof.
  intros Hl Hfg. rewrite <- Hl. clear l2 Hl.
  induction l1 as [|x l IH]; csimpl; [done|]. by rewrite IH, Hfg.
Qed.

Lemma matching_selected {RO : RangeOrder} selector metricMap :
  matching selector metricMap ≡ₚ selected selector metricMap.
Proof. unfold matching, selected. by rewrite range_perm. Qed.

Lemma elem_of_selected selector (metricMap : resourceMap) v :
  v ∈ selected selector metricMap ↔
  ∃ name sm, metricMap !! name = Some sm ∧ selector (cLabels sm) = true ∧ cValue sm = v.
Proof.
  unfold selected. rewrite list_elem_of_omap. split.
  - intros ([name sm] & Hin%elem_of_map_to_list & Hsel). simpl in Hsel.
    destruct (selector (cLabels sm)) eqn:E; [|done]. injection Hsel as <-. eauto.
  - intros (name & sm & Hin & Hsel & <-). exists (name, sm).
    split; [by apply elem_of_map_to_list|]. simpl. by rewrite Hsel.
Qed.

(** C6. When the metric name or the group-resource is unknown,
    [GetMetricsBySelector] returns nil; it has no error result.
    Otherwise it returns a list that holds, with namespace [""], the
    matching values of all namespaces under the name and
    group-resource, and with any other namespace the matching values
    of that namespace alone (none if the namespace is unknown). *)
Theorem GetMetricsBySelector_scoping {RO : RangeOrder} metricName groupResource
    namespace selector s :
  match customMetricsStore s !! metricName ≫= (λ metrics, metrics !! groupResource) with
  | None => GetMetricsBySelector metricName groupResource namespace selector s = None
  | Some group =>
      ∃ items,
        GetMetricsBySelector metricName groupResource namespace selector s = Some items ∧
        if decide (namespace = "")
        then items ≡ₚ map_to_list group ≫= (λ kv, selected selector kv.2)
        else items ≡ₚ from_option (selected selector) [] (group !! namespace)
  end.
Proof.
  unfold GetMetricsBySelector.
  destruct (customMetricsStore s !! metricName) as [metrics|]; simpl; [|done].
  destruct (metrics !! groupResource) as [group|]; simpl; [|done].
  case_decide.
  - eexists. split; [done|].
    apply bind_Permutation_ext; [apply range_perm|].
    intros kv. apply matching_selected.
  - destruct (group !! namespace) as [metricMap|]; simpl.
    + eexists. split; [done|]. apply matching_selected.
    + by eexists.
Qed.

(** ** External metric identity *)

Lemma sort_Strings_sorted l : Sorted String.le (sort_Strings l).
Proof. apply Sorted_merge_sort. apply _. Qed.

Lemma sort_Strings_perm l : sort_Strings l ≡ₚ l.
Proof. apply merge_sort_Permutation. Qed.

(** Sorting forgets the order its input came in. *)
Lemma sort_Strings_Permutation l1 l2 :
  l1 ≡ₚ l2 → sort_Strings l1 = sort_Strings l2.
Proof.
  intros Hl. apply (Sorted_unique String.le); try apply sort_Strings_sorted.
  by rewrite !sort_Strings_perm.
Qed.

Lemma hashLabelMap_canonical {RO : RangeOrder} labels :
  hashLabelMap labels = strings_Join (sort_Strings (label_strings labels)) ",".
Proof.
  unfold hashLabelMap, label_strings. f_equal.
  apply sort_Strings_Permutation. by rewrite range_perm.
Qed.

Lemma same_pairs_eq (l1 l2 : Labels) :
  (∀ k v, l1 !! k = Some v ↔ l2 !! k = Some v) → l1 = l2.
Proof.
  intros Hsame. apply map_eq. intros k.
  destruct (l1 !! k) as [v|] eqn:E1.
  - symmetry. apply (proj1 (Hsame k v)), E1.
  - destruct (l2 !! k) as [v|] eqn:E2; [|done].
    apply (proj2 (Hsame k v)) in E2. congruence.
Qed.

(** C5. The key of an external metric is the join of its sorted
    ["k=v"] strings, whatever order the label map is ranged over; so
    two external metrics of one name whose label maps hold the same
    pairs are filed under one key, and inserting the second replaces
    the first without adding an entry. *)
Theorem external_identity_canonical (RO1 RO2 : RangeOrder) now1 now2 e1 e2 s :
  external_metrics.MetricName e1 = external_metrics.MetricName e2 →
  (∀ k v, external_metrics.MetricLabels e1 !! k = Some v ↔
          external_metrics.MetricLabels e2 !! k = Some v) →
  let name := external_metrics.MetricName e1 in
  let key := @hashLabelMap RO1 (external_metrics.MetricLabels e1) in
  let s1 := @insertExternalMetric RO1 now1 e1 s in
  let s2 := @insertExternalMetric RO2 now2 e2 s1 in
  (∃ sorted, Sorted String.le sorted ∧
     sorted ≡ₚ label_strings (external_metrics.MetricLabels e1) ∧
     key = strings_Join sorted ",") ∧
  @hashLabelMap RO2 (external_metrics.MetricLabels e2) = key ∧
  lookup_external s1 name key = Some {| eValue := e1; eTTL := now1 + 15 * Minute |} ∧
  lookup_external s2 name key = Some {| eValue := e2; eTTL := now2 + 15 * Minute |} ∧
  (∀ m k, (m, k) ≠ (name, key) → lookup_external s2 m k = lookup_external s1 m k).
Proof.
  intros Hname Hsame%same_pairs_eq name key s1 s2.
  assert (@hashLabelMap RO2 (external_metrics.MetricLabels e2) = key) as Hkey.
  { unfold key. by rewrite Hsame, !hashLabelMap_canonical. }
  split; [|split; [done|]].
  { exists (sort_Strings (label_strings (external_metrics.MetricLabels e1))).
    split; [apply sort_Strings_sorted|]. split; [apply sort_Strings_perm|].
    apply hashLabelMap_canonical. }
  assert (∀ RO now e s0 m k,
    lookup_external (@insertExternalMetric RO now e s0) m k =
    if decide ((m, k) = (external_metrics.MetricName e,
                         @hashLabelMap RO (external_metrics.MetricLabels e)))
    then Some {| eValue := e; eTTL := TTL_of now |}
    else lookup_external s0 m k) as Hins.
  { intros RO now e s0 m k. unfold insertExternalMetric, lookup_external.
    destruct (externalMetricsStore s0 !! _) as [metrics|] eqn:Hm; simpl;
      (case_decide as Hmk; [injection Hmk as -> ->; by simplify_map_eq|]);
      (destruct (decide (m = external_metrics.MetricName e)) as [->|];
         simplify_map_eq; [|done]);
      (destruct (decide (k = @hashLabelMap RO (external_metrics.MetricLabels e))) as [->|];
         simplify_map_eq; done). }
  split; [|split].
  - unfold s1. by rewrite Hins, decide_True.
  - unfold s2. rewrite Hins, decide_True; [done|]. by rewrite Hkey, <- Hname.
  - intros m k Hmk. unfold s2. rewrite Hins, decide_False; [done|].
    by rewrite Hkey, <- Hname.
Qed.

(** ** The store theorems at sample inputs *)

Lemma reinsert_overwrites_witness :
  let s := @store_with_pod_a canonical_order in
  let v := sample_value "Pod" "ns1" "pod-a" 50 in
  let old := {| cValue := sample_value "Pod" "ns1" "pod-a" 42;
                cLabels := {[ "app" := "x" ]};
                cTTL := 15 * Minute |} in
  lookup_custom s (identity_of v) = Some old ∧
  (∃ s', insertCustomMetric 60 v ∅ s = Returned s' ∧
     lookup_custom s' (identity_of v) =
       Some {| cValue := v; cLabels := ∅; cTTL := 60 + 15 * Minute |} ∧
     entries_at s' (identity_of v) = 1%nat ∧
     ∀ j, j ≠ identity_of v → lookup_custom s' j = lookup_custom s j).
Proof.
  intros s v old.
  assert (lookup_custom s (identity_of v) = Some old) as Hold
    by (vm_compute; reflexivity).
  split; [exact Hold|].
  exact (proj1 (@reinsert_overwrites canonical_order 60 v ∅ s old Hold)).
Defined.

Lemma RemoveExpired_postcondition_witness :
  let s := @store_with_pod_a canonical_order in
  let clock_c := λ (_ : string) (_ : schema.GroupResource) (_ _ : string), 16 * Minute in
  let clock_e := λ _ _ : string, 16 * Minute in
  let s' := @RemoveExpired canonical_order clock_c clock_e s in
  (∀ (m : string) (g : schema.GroupResource) (ns n : string), 16 * Minute ≤ clock_c m g ns n) ∧
  (∀ m k : string, 16 * Minute ≤ clock_e m k) ∧
  (∀ i sm, lookup_custom s' i = Some sm → ¬ cTTL sm < 16 * Minute) ∧
  (∀ m k sm, lookup_external s' m k = Some sm → ¬ eTTL sm < 16 * Minute) ∧
  no_empty_maps s'.
Proof.
  intros s clock_c clock_e s'.
  assert (∀ (m : string) (g : schema.GroupResource) (ns n : string),
            16 * Minute ≤ clock_c m g ns n) as Hc by (intros; unfold clock_c; lia).
  assert (∀ m k : string, 16 * Minute ≤ clock_e m k) as He
    by (intros; unfold clock_e; lia).
  split; [exact Hc|]. split; [exact He|].
  exact (@RemoveExpired_postcondition canonical_order clock_c clock_e (16 * Minute) s Hc He).
Defined.

Lemma external_identity_canonical_witness :
  let e1 := {| external_metrics.MetricName := "queue-length";
               external_metrics.MetricLabels := <["b" := "2"]> (<["a" := "1"]> ∅);
               external_metrics.Timestamp := 0;
               external_metrics.Value := 3 |} in
  let e2 := {| external_metrics.MetricName := "queue-length";
               external_metrics.MetricLabels := <["a" := "1"]> (<["b" := "2"]> ∅);
               external_metrics.Timestamp := 5;
               external_metrics.Value := 4 |} in
  let s1 := @insertExternalMetric canonical_order 0 e1 NewMetricStore in
  let s2 := @insertExternalMetric reversed_order 5 e2 s1 in
  external_metrics.MetricName e1 = external_metrics.MetricName e2 ∧
  (∀ k v, external_metrics.MetricLabels e1 !! k = Some v ↔
          external_metrics.MetricLabels e2 !! k = Some v) ∧
  @hashLabelMap reversed_order (external_metrics.MetricLabels e2) =
    @hashLabelMap canonical_order (external_metrics.MetricLabels e1) ∧
  lookup_external s2 "queue-length" "a=1,b=2" =
    Some {| eValue := e2; eTTL := 5 + 15 * Minute |}.
Proof.
  intros e1 e2 s1 s2.
  assert (external_metrics.MetricName e1 = external_metrics.MetricName e2) as Hname
    by reflexivity.
  assert (∀ k v, external_metrics.MetricLabels e1 !! k = Some v ↔
                 external_metrics.MetricLabels e2 !! k = Some v) as Hsame.
  { intros k v.
    assert (external_metrics.MetricLabels e1 = external_metrics.MetricLabels e2) as ->
      by (vm_compute; reflexivity).
    reflexivity. }
  split; [exact Hname|]. split; [exact Hsame|].
  pose proof (external_identity_canonical canonical_order reversed_order
                0 5 e1 e2 NewMetricStore Hname Hsame) as (_ & Hkey & _ & Hlk & _).
  split; [exact Hkey|]. exact Hlk.
Defined.

(** ** The ZMON collector *)

(** C10. [GetMetrics] of any ZMON collector succeeds with one value:
    an external metric of quantity 0 that carries the metric name, the
    label map and the source type of the collector and the clock
    reading of the call.  Nothing else of the collector enters the
    result: collectors that differ in endpoint, check id, query or
    interval return the same. *)
Theorem ZMONCollector_GetMetrics_constant (now : Time) (c : ZMONCollector) :
  ZMONCollector_GetMetrics now c =
    Ok [ {| Type_ := zmon_metricType c;
            Custom := custom_metrics.zero;
            External :=
              {| external_metrics.MetricName := zmon_metricName c;
                 external_metrics.MetricLabels := zmon_labels c;
                 external_metrics.Timestamp := now;
                 external_metrics.Value := 0 |};
            CLabels := ∅ |} ] ∧
  ∀ endpoint interval checkID query,
    ZMONCollector_GetMetrics now
      {| zmon_endpoint := endpoint; zmon_interval := interval;
         zmon_checkID := checkID; zmon_query := query;
         zmon_labels := zmon_labels c; zmon_metricName := zmon_metricName c;
         zmon_metricType := zmon_metricType c |}
    = ZMONCollector_GetMetrics now c.
Proof. split; [reflexivity|]. intros. reflexivity. Qed.

(** A collector that [NewZMONCollector] built carries the name, type
    and labels of its configuration, so these are what its values
    carry. *)
Lemma NewZMONCollector_GetMetrics endpoint config interval c now :
  NewZMONCollector endpoint config interval = Ok c →
  ∃ v, ZMONCollector_GetMetrics now c = Ok [v] ∧
       quantity_of v = 0 ∧
       external_metrics.Value (External v) = 0 ∧
       external_metrics.MetricName (External v) = ConfigName config ∧
       external_metrics.MetricLabels (External v) = ConfigLabels config ∧
       external_metrics.Timestamp (External v) = now.
Proof.
  unfold NewZMONCollector.
  destruct (ConfigLabels config !! zmonCheckIDLabelKey) as [checkID|]; [|done].
  destruct (ConfigLabels config !! zmonQueryLabelKey) as [query|]; [|done].
  intros [= <-]. eexists. split; [reflexivity|]. simpl.
  split; [|done]. unfold quantity_of; simpl. by destruct (ConfigType config).
Qed.

(** ** The skipper collector: one delegate per host *)

Lemma replace_dots_example : replace_dots "www.example.org" = "www_example_org".
Proof. reflexivity. Qed.

(** Every byte of the host is kept, except that a dot becomes an
    underscore. *)
Lemma replace_dots_bytes s :
  String.list_ascii_of_string (replace_dots s) =
  (λ c, if decide (c = Ascii.ascii_of_N 46) then Ascii.ascii_of_N 95 else c)
    <$> String.list_ascii_of_string s.
Proof. induction s as [|c s IH]; simpl; [done|]. by rewrite IH. Qed.

Lemma replace_dots_free (s : string) :
  Ascii.ascii_of_N 46 ∉ String.list_ascii_of_string (replace_dots s).
Proof.
  induction s as [|c s IH]; simpl; [by apply not_elem_of_nil|].
  apply not_elem_of_cons. split; [|done]. by case_decide.
Qed.

Section skipper_fan_out.
Context {World : Type}.
Implicit Types (c : SkipperCollector World) (w : World).

Lemma host_collectors_builds c rules collectors acc :
  builds c rules collectors →
  host_collectors c rules acc = Ok (acc ++ collectors).
Proof.
  intros Hb. revert acc.
  induction Hb as [|rule collector rules collectors Hrule _ IH]; intros acc; simpl.
  - by rewrite app_nil_r.
  - rewrite Hrule, IH. by rewrite <- app_assoc.
Qed.

(** The first host the plugin refuses ends the construction with the
    error of the plugin. *)
Lemma host_collectors_error c rules1 rule rules2 collectors acc e :
  builds c rules1 collectors →
  skipper_plugin c (skipper_hpa c) (host_config (skipper_config c) rule)
                 (skipper_interval c) = Err e →
  host_collectors c (rules1 ++ rule :: rules2) acc = Err e.
Proof.
  intros Hb He. revert acc.
  induction Hb as [|rule1 collector rules collectors Hrule _ IH]; intros acc; simpl.
  - by rewrite He.
  - by rewrite Hrule, IH.
Qed.

(** C8. When the ingress is fetched and the delegate plugin accepts
    every host, [getCollector] has called the plugin once per rule, in
    order, each time with the HPA and interval of the collector and
    with its configuration changed in two places and in no other: the
    only entry of [Config] is the query
    [scalar(sum(rate(skipper_serve_host_duration_seconds_count{host=..}[1m])))]
    with the quoted host in the place of the dots, the host being the
    rule's with every dot replaced by an underscore and every other
    byte kept, and per-replica averaging is off.  With more than one
    rule the delegates are wrapped by [NewMaxCollector], with one rule
    the delegate itself is returned, and with none the call fails
    with the no-hosts error that names the ingress. *)
Theorem getCollector_fan_out c w ingress w1 collectors :
  GetIngress (skipper_client c)
             (custom_metrics.Namespace (skipper_objectReference c))
             (custom_metrics.Name (skipper_objectReference c)) w = (Ok ingress, w1) →
  builds c (Rules ingress) collectors →
  let dot := Ascii.ascii_of_N 46 in
  let underscore := Ascii.ascii_of_N 95 in
  let quote := String (Ascii.ascii_of_N 34) EmptyString in
  let query_for host :=
    "scalar(sum(rate(skipper_serve_host_duration_seconds_count{host="
      +:+ quote +:+ host +:+ quote +:+ "}[1m])))" in
  length collectors = length (Rules ingress) ∧
  Forall2 (λ rule collector,
             ∃ host,
               String.list_ascii_of_string host =
                 (λ b, if decide (b = dot) then underscore else b)
                   <$> String.list_ascii_of_string (Host rule) ∧
               (dot ∉ String.list_ascii_of_string host) ∧
               skipper_plugin c (skipper_hpa c)
                 {| ConfigName := ConfigName (skipper_config c);
                    ConfigType := ConfigType (skipper_config c);
                    ObjectReference := ObjectReference (skipper_config c);
                    Config := {[ "query" := query_for host ]};
                    ConfigLabels := ConfigLabels (skipper_config c);
                    PerReplica := false |}
                 (skipper_interval c) = Ok collector)
          (Rules ingress) collectors ∧
  getCollector c w =
    match collectors with
    | [] => (Err ("no hosts defined on ingress "
                    +:+ custom_metrics.Namespace (skipper_objectReference c) +:+ "/"
                    +:+ custom_metrics.Name (skipper_objectReference c)
                    +:+ ", unable to create collector"), w1)
    | [collector] => (Ok collector, w1)
    | _ => (Ok (NewMaxCollector (skipper_interval c) collectors), w1)
    end.
Proof.
  intros Hget Hb dot underscore quote query_for.
  split; [symmetry; by eapply Forall2_length|]. split.
  - eapply Forall2_impl; [exact Hb|]. intros rule collector Hrule.
    exists (replace_dots (Host rule)).
    split; [apply replace_dots_bytes|]. split; [apply replace_dots_free|exact Hrule].
  - unfold getCollector, bind. rewrite Hget.
    rewrite (host_collectors_builds _ _ _ [] Hb). simpl.
    destruct collectors as [|c1 [|c2 rest]]; [done..|].
    rewrite decide_True by (simpl; lia). done.
Qed.
End skipper_fan_out.

(** ** The maximum-of combinator *)

(** [first_max] picks the first value of largest quantity: everything
    before it is strictly smaller, nothing after it is larger. *)
Lemma first_max_spec values : ∀ best,
  ∃ pre post,
    best :: values = pre ++ first_max best values :: post ∧
    Forall (λ v, quantity_of v < quantity_of (first_max best values)) pre ∧
    Forall (λ v, quantity_of v ≤ quantity_of (first_max best values)) post.
Proof.
  induction values as [|v rest IH]; intros best; simpl.
  - exists [], []. by repeat split.
  - destruct (Z.ltb_spec (quantity_of best) (quantity_of v)) as [Hlt|Hge].
    + destruct (IH v) as (pre & post & Heq & Hpre & Hpost).
      exists (best :: pre), post. split; [simpl; by rewrite Heq|]. split; [|done].
      constructor; [|done].
      destruct pre as [|p pre]; simpl in Heq; injection Heq as Hv Hrest.
      * by rewrite <- Hv.
      * subst p. apply Forall_cons in Hpre as [Hvr _]. lia.
    + destruct (IH best) as (pre & post & Heq & Hpre & Hpost).
      destruct pre as [|p pre]; simpl in Heq; injection Heq as Hb Hrest.
      * exists [], (v :: post). split; [simpl; by rewrite <- Hb, <- Hrest|].
        split; [done|]. constructor; [by rewrite <- Hb|done].
      * subst p. exists (best :: v :: pre), post.
        split; [simpl; by rewrite <- Hrest|]. split; [|done].
        apply Forall_cons in Hpre as [Hbr Hpre].
        constructor; [done|]. constructor; [lia|done].
Qed.

Section max_collector.
Context {World : Type}.
Implicit Types (cs : list (Collector World)) (w : World).

Lemma collect_all_runs cs w vss w' :
  runs cs w vss w' → collect_all cs w = (Ok (concat vss), w').
Proof.
  induction 1 as [|c cs w values w1 rest w2 Hc _ IH]; simpl; [done|].
  unfold bind. rewrite Hc, IH. done.
Qed.

Lemma collect_all_fail_fast pre c post w vss w1 e w2 :
  runs pre w vss w1 → GetMetrics c w1 = (Err e, w2) →
  collect_all (pre ++ c :: post) w = (Err e, w2).
Proof.
  intros Hruns He.
  induction Hruns as [|c0 cs w values w1 rest w2' Hc _ IH]; simpl; unfold bind.
  - by rewrite He.
  - by rewrite Hc, IH.
Qed.

(** C9. Over the maximum-of combinator as the design document
    describes it.  When every delegate succeeds, invoked in order from
    the world the one before left, and some value comes back, the
    result is the one value of largest quantity, the first such in
    delegate order.  The first delegate to fail ends the call with its
    error, in the world that delegate left.  Without delegates, and
    without any value returned, the call fails.  Delegates returning
    3, 7, 5 give the 7; returning 7, 7, 3 give the first 7; and after a
    failing second delegate the third is not invoked. *)
Theorem MaxCollector_semantics (interval : Duration) :
  (∀ cs w vss w', runs cs w vss w' → concat vss ≠ [] →
     ∃ pre r post,
       GetMetrics (NewMaxCollector interval cs) w = (Ok [r], w') ∧
       concat vss = pre ++ r :: post ∧
       Forall (λ v, quantity_of v < quantity_of r) pre ∧
       Forall (λ v, quantity_of v ≤ quantity_of r) post) ∧
  (∀ pre c post w vss w1 e w2,
     runs pre w vss w1 → GetMetrics c w1 = (Err e, w2) →
     GetMetrics (NewMaxCollector interval (pre ++ c :: post)) w = (Err e, w2)) ∧
  (∀ w, ∃ e, GetMetrics (NewMaxCollector (World := World) interval []) w = (Err e, w)) ∧
  (∀ cs w vss w', runs cs w vss w' → concat vss = [] →
     ∃ e, GetMetrics (NewMaxCollector interval cs) w = (Err e, w')) ∧
  GetMetrics (NewMaxCollector interval
      [logged "a" (Ok [host_value "a" 3]); logged "b" (Ok [host_value "b" 7]);
       logged "c" (Ok [host_value "c" 5])]) []
    = (Ok [host_value "b" 7], ["a"; "b"; "c"]) ∧
  GetMetrics (NewMaxCollector interval
      [logged "a" (Ok [host_value "a" 7]); logged "b" (Ok [host_value "b" 7]);
       logged "c" (Ok [host_value "c" 3])]) []
    = (Ok [host_value "a" 7], ["a"; "b"; "c"]) ∧
  GetMetrics (NewMaxCollector interval
      [logged "a" (Ok [host_value "a" 3]); logged "b" (Err "backend down");
       logged "c" (Ok [host_value "c" 5])]) []
    = (Err "backend down", ["a"; "b"]).
Proof.
  split; [|split; [|split; [|split; [|by repeat split]]]].
  - intros cs w vss w' Hruns Hne. simpl. unfold MaxCollector_GetMetrics, bind.
    destruct cs as [|c cs]; [by inversion Hruns; subst|].
    rewrite (collect_all_runs _ _ _ _ Hruns).
    destruct (concat vss) as [|v rest]; [done|].
    destruct (first_max_spec rest v) as (pre & post & Heq & Hpre & Hpost).
    by exists pre, (first_max v rest), post.
  - intros pre c post w vss w1 e w2 Hruns He. simpl.
    unfold MaxCollector_GetMetrics, bind.
    pose proof (collect_all_fail_fast _ _ post _ _ _ _ _ Hruns He) as Hall.
    destruct pre; simpl in *; by rewrite Hall.
  - intros w. by eexists.
  - intros cs w vss w' Hruns Hnil. simpl. unfold MaxCollector_GetMetrics, bind.
    destruct cs as [|c cs]; [inversion Hruns; subst; by eexists|].
    rewrite (collect_all_runs _ _ _ _ Hruns), Hnil. by eexists.
Qed.
End max_collector.

(** ** The skipper collector: the per-replica average *)

Lemma average_milli_900_3 : average_milli 900 3 = 300.
Proof. reflexivity. Qed.

Section skipper_average.
Context {World : Type}.
Implicit Types (c : SkipperCollector World) (w : World).

(** A scale target that is neither a deployment nor a stateful set
    has no replicas, and the cluster is not asked. *)
Lemma targetRefReplicas_unsupported (client : Client World) hpa w :
  TargetKind (ScaleTargetRef hpa) ≠ "Deployment" →
  TargetKind (ScaleTargetRef hpa) ≠ "StatefulSet" →
  targetRefReplicas client hpa w = (Ok 0, w).
Proof.
  intros Hd Hs. unfold targetRefReplicas. by rewrite !decide_False.
Qed.

End skipper_average.

(** ** The division through [float64] *)

Lemma digits2_pos_size p : digits2_pos p = Pos.size p.
Proof. induction p; simpl; congruence. Qed.

(** A positive number of [d] binary digits lies in [2^(d-1), 2^d). *)
Lemma digits2_pos_bounds p :
  2 ^ (Z.pos (digits2_pos p) - 1) ≤ Z.pos p < 2 ^ Z.pos (digits2_pos p).
Proof.
  rewrite digits2_pos_size.
  pose proof (Pos.size_gt p) as Hgt. pose proof (Pos.size_le p) as Hle.
  apply Pos2Z.pos_lt_pos in Hgt. apply Pos2Z.pos_le_pos in Hle.
  rewrite Pos2Z.inj_pow in Hgt, Hle. rewrite (Pos2Z.inj_xO p) in Hle.
  split; [|done].
  assert (2 ^ Z.pos (Pos.size p) = 2 * 2 ^ (Z.pos (Pos.size p) - 1)) as Hpow.
  { rewrite <- Z.pow_succ_r by lia. f_equal. lia. }
  lia.
Qed.

Lemma digits2_pos_unique p d :
  2 ^ (d - 1) ≤ Z.pos p < 2 ^ d → Z.pos (digits2_pos p) = d.
Proof.
  intros [Hlo Hhi]. pose proof (digits2_pos_bounds p) as [Hlo' Hhi'].
  destruct (Z.lt_trichotomy (Z.pos (digits2_pos p)) d) as [Hlt|[Heq|Hgt]]; [|done|].
  - assert (2 ^ Z.pos (digits2_pos p) ≤ 2 ^ (d - 1)) by (apply Z.pow_le_mono_r; lia). lia.
  - assert (2 ^ d ≤ 2 ^ (Z.pos (digits2_pos p) - 1)) by (apply Z.pow_le_mono_r; lia). lia.
Qed.

Lemma iter_xO_mul p k : Z.pos (Pos.iter xO p k) = Z.pos p * 2 ^ Z.pos k.
Proof.
  revert p. induction k as [|k IH] using Pos.peano_ind; intros p.
  - simpl. lia.
  - rewrite Pos.iter_succ. rewrite Pos2Z.inj_xO, IH, Pos2Z.inj_succ, Z.pow_succ_r by lia. lia.
Qed.

(** A 53-digit mantissa with an exponent in range needs no rounding. *)
Lemma binary_round_aux_canonical s m e :
  Z.pos (digits2_pos m) = 53 → -1074 ≤ e ≤ 971 →
  binary_round_aux 53 1024 s (Z.pos m) e loc_Exact = S754_finite s m e.
Proof.
  intros Hd He. unfold binary_round_aux, shr_fexp, fexp, emin. simpl Zdigits2.
  rewrite Hd. replace (Z.max (53 + e - 53) (3 - 1024 - 53) - e) with 0 by lia.
  simpl. rewrite Hd.
  replace (Z.max (53 + e - 53) (3 - 1024 - 53) - e) with 0 by lia. simpl.
  destruct (Z.leb_spec e (1024 - 53)); [done|lia].
Qed.

(** [float64(z)] for a positive [z] below [2^53]: the digits of [z]
    moved up to fill the 53-bit mantissa, nothing lost. *)
Lemma binary_round_small s p :
  Z.pos p < 2 ^ 53 →
  ∃ m, binary_round 53 1024 s p 0 = S754_finite s m (Z.pos (digits2_pos p) - 53) ∧
       Z.pos m = Z.pos p * 2 ^ (53 - Z.pos (digits2_pos p)) ∧
       Z.pos (digits2_pos m) = 53.
Proof.
  intros Hp. pose proof (digits2_pos_bounds p) as [Hlo Hhi].
  set (d := Z.pos (digits2_pos p)) in *.
  assert (1 ≤ d ≤ 53) as Hd.
  { split; [unfold d; lia|].
    destruct (Z.le_gt_cases d 53) as [|Hgt]; [done|].
    assert (2 ^ 53 ≤ 2 ^ (d - 1)) by (apply Z.pow_le_mono_r; lia). lia. }
  unfold binary_round, fexp, emin.
  replace (Z.max (Z.pos (digits2_pos p) + 0 - 53) (3 - 1024 - 53)) with (d - 53)
    by (fold d; lia).
  unfold shl_align.
  destruct (d - 53 - 0) as [|k|k] eqn:Hk; [|lia|].
  - exists p. assert (d = 53) as Hd53 by lia. rewrite Hd53.
    split; [apply binary_round_aux_canonical; [by fold d|lia]|].
    split; [simpl; lia|by fold d].
  - assert (Z.pos (Pos.iter xO p k) = Z.pos p * 2 ^ (53 - d)) as Hm.
    { rewrite iter_xO_mul. do 2 f_equal. lia. }
    assert (Z.pos (digits2_pos (Pos.iter xO p k)) = 53) as Hdm.
    { apply digits2_pos_unique. rewrite Hm.
      replace (2 ^ 53) with (2 ^ d * 2 ^ (53 - d)) by (rewrite <- Z.pow_add_r by lia; f_equal; lia).
      replace (2 ^ (53 - 1)) with (2 ^ (d - 1) * 2 ^ (53 - d))
        by (rewrite <- Z.pow_add_r by lia; f_equal; lia).
      assert (0 < 2 ^ (53 - d)) by (apply Z.pow_pos_nonneg; lia). nia. }
    exists (Pos.iter xO p k).
    split; [apply binary_round_aux_canonical; [done|lia]|done].
Qed.

(** If the float is [Q / 2^k] for an integer [Q], its integer part is
    the quotient of [Q] by [2^k]. *)
Lemma integer_part_scaled m e k Q :
  0 ≤ k → 0 ≤ e + k → Z.pos m * 2 ^ (e + k) = Q → integer_part m e = Q / 2 ^ k.
Proof.
  intros Hk Hek <-. unfold integer_part.
  destruct (Z.leb_spec 0 e) as [He|He].
  - rewrite Z.pow_add_r, Z.mul_assoc by lia.
    rewrite Z.div_mul; [done|]. apply Z.pow_nonzero; lia.
  - replace (2 ^ k) with (2 ^ (- e) * 2 ^ (e + k))
      by (rewrite <- Z.pow_add_r by lia; f_equal; lia).
    rewrite Z.div_mul_cancel_r; [done| |]; apply Z.pow_nonzero; lia.
Qed.

Lemma shr_fexp_53 m e l :
  Z.pos (digits2_pos m) = 53 → -1074 ≤ e →
  shr_fexp 53 1024 (Z.pos m) e l = (shr_record_of_loc (Z.pos m) l, e).
Proof.
  intros Hd He. unfold shr_fexp, fexp, emin. simpl Zdigits2. rewrite Hd.
  by replace (Z.max (53 + e - 53) (3 - 1024 - 53) - e) with 0 by lia.
Qed.

Lemma shr_fexp_54 m e l :
  Z.pos (digits2_pos m) = 54 → -1075 ≤ e →
  shr_fexp 53 1024 (Z.pos m) e l = (shr_1 (shr_record_of_loc (Z.pos m) l), e + 1).
Proof.
  intros Hd He. unfold shr_fexp, fexp, emin. simpl Zdigits2. rewrite Hd.
  by replace (Z.max (54 + e - 53) (3 - 1024 - 53) - e) with 1 by lia.
Qed.

Lemma loc_of_shr_record_of_loc m l :
  loc_of_shr_record (shr_record_of_loc m l) = l ∧ shr_m (shr_record_of_loc m l) = m.
Proof. by destruct l as [|[]]. Qed.

(** The last step of [binary_round_aux]: a rounded mantissa of 53
    digits, or the 54-digit [2^53], is packed without loss. *)
Lemma pack_rounded s (Q : positive) e k :
  1 ≤ k → - 1074 ≤ e → e + 1 ≤ 971 → 0 ≤ e + k →
  2 ^ 52 ≤ Z.pos Q ≤ 2 ^ 53 →
  ∃ M E,
    (let '(mrs, e'') := shr_fexp 53 1024 (Z.pos Q) e loc_Exact in
     match shr_m mrs with
     | 0 => S754_zero s
     | Z.pos m => if e'' <=? 1024 - 53 then S754_finite s m e'' else S754_infinity s
     | Z.neg _ => S754_nan
     end) = S754_finite s M E ∧
    integer_part M E = Z.pos Q * 2 ^ (e + k) / 2 ^ k.
Proof.
  intros Hk He He' Hek [Hlo Hhi].
  destruct (decide (Z.pos Q = 2 ^ 53)) as [Htop|Hne].
  - rewrite shr_fexp_54; [|apply digits2_pos_unique; lia|lia].
    destruct Q as [Q'|Q'|]; [lia| |lia]. simpl.
    destruct (Z.leb_spec (e + 1) (1024 - 53)); [|lia].
    eexists _, _. split; [done|].
    apply integer_part_scaled; [lia..|].
    replace (e + 1 + k) with (1 + (e + k)) by lia.
    rewrite Z.pow_add_r by lia. lia.
  - rewrite shr_fexp_53; [|apply digits2_pos_unique; lia|lia]. simpl.
    destruct (Z.leb_spec e (1024 - 53)); [|lia].
    eexists _, _. split; [done|].
    apply integer_part_scaled; [lia..|done].
Qed.

(** Rounding the 53- or 54-digit quotient [q] of two mantissas, scaled
    by [2^-k]: the float that comes out is [Q / 2^k] for [Q] one of
    [q], [q + 1], or [q - 1] when [q] is odd. *)
Lemma round_quotient s q l k :
  1 ≤ k ≤ 1000 → 2 ^ 52 ≤ Z.pos q < 2 ^ 54 →
  ∃ M E Q,
    binary_round_aux 53 1024 s (Z.pos q) (- k) l = S754_finite s M E ∧
    integer_part M E = Q / 2 ^ k ∧
    (Q = Z.pos q ∨ Q = Z.pos q + 1 ∨ (Q = Z.pos q - 1 ∧ Z.odd (Z.pos q) = true)).
Proof.
  intros Hk [Hlo Hhi]. unfold binary_round_aux.
  destruct (Z.lt_ge_cases (Z.pos q) (2 ^ 53)) as [H53|H54].
  - rewrite shr_fexp_53; [|apply digits2_pos_unique; lia|lia].
    destruct (loc_of_shr_record_of_loc (Z.pos q) l) as [-> ->].
    assert (∃ Q1 : positive, round_nearest_even (Z.pos q) l = Z.pos Q1 ∧
              (Z.pos Q1 = Z.pos q ∨ Z.pos Q1 = Z.pos q + 1)) as (Q1 & -> & HQ1).
    { destruct l as [|[]]; unfold round_nearest_even;
        try (exists q; split; [done|by left]).
      - destruct (Z.even (Z.pos q)); [exists q; split; [done|by left]|].
        exists (q + 1)%positive. split; [done|right; lia].
      - exists (q + 1)%positive. split; [done|right; lia]. }
    destruct (pack_rounded s Q1 (- k) k) as (M & E & Hpack & Hint); [lia..|].
    exists M, E, (Z.pos Q1). split; [exact Hpack|]. split.
    + rewrite Hint. replace (- k + k) with 0 by lia. by rewrite Z.mul_1_r.
    + destruct HQ1 as [->| ->]; auto.
  - rewrite shr_fexp_54; [|apply digits2_pos_unique; lia|lia].
    assert (∃ Q1 : positive,
              round_nearest_even (shr_m (shr_1 (shr_record_of_loc (Z.pos q) l)))
                (loc_of_shr_record (shr_1 (shr_record_of_loc (Z.pos q) l))) = Z.pos Q1 ∧
              (2 * Z.pos Q1 = Z.pos q ∨ 2 * Z.pos Q1 = Z.pos q + 1 ∨
               (2 * Z.pos Q1 = Z.pos q - 1 ∧ Z.odd (Z.pos q) = true)))
      as (Q1 & -> & HQ1).
    { destruct q as [p|p|]; [| |lia].
      - destruct l as [|[]]; cbn [shr_record_of_loc shr_1 shr_m loc_of_shr_record orb round_nearest_even].
        + destruct (Z.even (Z.pos p)) eqn:Hev.
          * exists p. split; [done|]. right; right. split; [lia|done].
          * exists (p + 1)%positive. split; [done|]. right; left. lia.
        + exists (p + 1)%positive. split; [done|]. right; left. lia.
        + exists (p + 1)%positive. split; [done|]. right; left. lia.
        + exists (p + 1)%positive. split; [done|]. right; left. lia.
      - exists p. split; [by destruct l as [|[]]|]. left. lia. }
    destruct (pack_rounded s Q1 (- k + 1) k) as (M & E & Hpack & Hint); [lia..|].
    exists M, E, (2 * Z.pos Q1). split; [exact Hpack|]. split.
    + rewrite Hint. replace (- k + 1 + k) with 1 by lia.
      by rewrite Z.pow_1_r, Z.mul_comm.
    + destruct HQ1 as [<-|[->|[-> ?]]]; auto.
Qed.

(** The division of two floats with full mantissas: the quotient of
    the mantissas, carried to 53 further binary places, is rounded. *)
Lemma SFdiv_full_mantissas s1 s2 m1 m2 d1 d2 :
  Z.pos (digits2_pos m1) = 53 → Z.pos (digits2_pos m2) = 53 →
  1 ≤ d1 ≤ 53 → 1 ≤ d2 ≤ 53 →
  SFdiv 53 1024 (S754_finite s1 m1 (d1 - 53)) (S754_finite s2 m2 (d2 - 53)) =
  binary_round_aux 53 1024 (xorb s1 s2)
    (Z.pos m1 * 2 ^ 53 / Z.pos m2) (- (53 + d2 - d1))
    (new_location (Z.pos m2) ((Z.pos m1 * 2 ^ 53) mod Z.pos m2)).
Proof.
  intros Hm1 Hm2 Hd1 Hd2. unfold SFdiv, SFdiv_core_binary, fexp, emin.
  simpl Zdigits2. rewrite Hm1, Hm2.
  replace (Z.min (Z.max (53 + (d1 - 53) - (53 + (d2 - 53)) - 53) (3 - 1024 - 53))
                 (d1 - 53 - (d2 - 53))) with (- (53 + d2 - d1)) by lia.
  replace (d1 - 53 - (d2 - 53) - - (53 + d2 - d1)) with 53 by lia.
  rewrite Z.shiftl_mul_pow2 by lia.
  unfold Z.div, Z.modulo. by destruct (Z.div_eucl _ _).
Qed.

Section quotient_arithmetic.
Variables a b P : Z.
Hypothesis a_nonneg : 0 ≤ a.
Hypothesis b_small : 0 < b < P.

(** With [b < P], the quotient [a / b] carried to [P] further places
    stays clear of the next integer by more than one unit. *)
Lemma scaled_quotient_floor : (a * P / b) / P = a / b.
Proof.
  rewrite Z.div_div by lia. rewrite Z.div_mul_cancel_r by lia. done.
Qed.

Lemma scaled_quotient_succ : (a * P / b + 1) / P = a / b.
Proof.
  pose proof (Z.div_mod a b ltac:(lia)) as Ha.
  pose proof (Z.mod_pos_bound a b ltac:(lia)) as Ht.
  set (n := a / b) in *. set (t := a mod b) in *.
  assert (a * P = n * P * b + t * P) as -> by (rewrite Ha; ring).
  rewrite Z.div_add_l by lia.
  assert (t * P / b < P - 1) as Hq.
  { apply Z.div_lt_upper_bound; [lia|]. nia. }
  assert (0 ≤ t * P / b) by (apply Z.div_pos; nia).
  symmetry. apply (Z.div_unique _ _ _ (t * P / b + 1)); lia.
Qed.
End quotient_arithmetic.

Lemma odd_pred_div q k :
  1 ≤ k → 0 < q → Z.odd q = true → (q - 1) / 2 ^ k = q / 2 ^ k.
Proof.
  intros Hk Hq Hodd.
  assert (0 < 2 ^ k) as HP by (apply Z.pow_pos_nonneg; lia).
  pose proof (Z.div_mod q (2 ^ k) ltac:(lia)) as Hdm.
  pose proof (Z.mod_pos_bound q (2 ^ k) HP) as Hm.
  assert (q mod 2 ^ k ≠ 0) as Hne.
  { intros H0. rewrite H0, Z.add_0_r in Hdm.
    replace (2 ^ k) with (2 * 2 ^ (k - 1)) in Hdm
      by (rewrite <- Z.pow_succ_r by lia; f_equal; lia).
    rewrite Hdm, <- Z.mul_assoc, Z.odd_mul in Hodd. done. }
  symmetry. apply (Z.div_unique _ _ _ (q mod 2 ^ k - 1)); lia.
Qed.

(** The float quotient of two positive integers below [2^53] has the
    integer quotient as its integer part. *)
Lemma float_quotient_integer_part s1 s2 pa pb :
  Z.pos pa < 2 ^ 53 → Z.pos pb < 2 ^ 53 →
  ∃ M E,
    SFdiv 53 1024 (binary_round 53 1024 s1 pa 0) (binary_round 53 1024 s2 pb 0)
      = S754_finite (xorb s1 s2) M E ∧
    integer_part M E = Z.pos pa / Z.pos pb.
Proof.
  intros Ha Hb.
  destruct (binary_round_small s1 pa Ha) as (ma & -> & Hma & Hda).
  destruct (binary_round_small s2 pb Hb) as (mb & -> & Hmb & Hdb).
  pose proof (digits2_pos_bounds pa) as [Halo Hahi].
  pose proof (digits2_pos_bounds pb) as [Hblo Hbhi].
  pose proof (digits2_pos_bounds ma) as [Hmalo Hmahi].
  pose proof (digits2_pos_bounds mb) as [Hmblo Hmbhi].
  rewrite Hda in Hmalo, Hmahi. rewrite Hdb in Hmblo, Hmbhi.
  set (d1 := Z.pos (digits2_pos pa)) in *. set (d2 := Z.pos (digits2_pos pb)) in *.
  assert (1 ≤ d1 ≤ 53) as Hd1.
  { split; [unfold d1; lia|]. destruct (Z.le_gt_cases d1 53); [done|].
    assert (2 ^ 53 ≤ 2 ^ (d1 - 1)) by (apply Z.pow_le_mono_r; lia). lia. }
  assert (1 ≤ d2 ≤ 53) as Hd2.
  { split; [unfold d2; lia|]. destruct (Z.le_gt_cases d2 53); [done|].
    assert (2 ^ 53 ≤ 2 ^ (d2 - 1)) by (apply Z.pow_le_mono_r; lia). lia. }
  rewrite SFdiv_full_mantissas by done.
  set (k := 53 + d2 - d1). set (P := 2 ^ k). set (C := 2 ^ (53 - d2)).
  assert (0 < C) as HC by (apply Z.pow_pos_nonneg; lia).
  assert (0 < P) as HP by (apply Z.pow_pos_nonneg; lia).
  assert (Z.pos pb < P) as HbP.
  { assert (2 ^ d2 ≤ P) by (apply Z.pow_le_mono_r; lia). lia. }
  assert (Z.pos ma * 2 ^ 53 = Z.pos pa * P * C) as Hnum.
  { rewrite Hma. unfold P, C, k. rewrite <- !Z.mul_assoc, <- !Z.pow_add_r by lia.
    do 2 f_equal. lia. }
  assert (Z.pos ma * 2 ^ 53 / Z.pos mb = Z.pos pa * P / Z.pos pb) as Hq.
  { rewrite Hnum, Hmb. fold C. apply Z.div_mul_cancel_r; lia. }
  assert (2 ^ 52 ≤ Z.pos ma * 2 ^ 53 / Z.pos mb < 2 ^ 54) as Hqb.
  { split; [apply Z.div_le_lower_bound; lia|apply Z.div_lt_upper_bound; lia]. }
  destruct (Z.pos ma * 2 ^ 53 / Z.pos mb) as [|q|q] eqn:Hqeq; [lia| |lia].
  destruct (round_quotient (xorb s1 s2) q
              (new_location (Z.pos mb) ((Z.pos ma * 2 ^ 53) mod Z.pos mb)) k)
    as (M & E & Q & Hround & Hint & HQ); [unfold k; lia|done|].
  exists M, E. split; [exact Hround|]. rewrite Hint. fold P.
  destruct HQ as [->|[->|[-> Hodd]]].
  - rewrite Hq. apply scaled_quotient_floor; lia.
  - rewrite Hq. apply scaled_quotient_succ; lia.
  - unfold P. rewrite odd_pred_div; [|unfold k; lia|lia|exact Hodd]. fold P.
    rewrite Hq. apply scaled_quotient_floor; lia.
Qed.

(** The quotient the collector computes through [float64] is the
    integer quotient, rounded towards zero, as long as the milli-unit
    quantity is below [2^53] in magnitude. *)
Lemma average_milli_exact milli replicas :
  - 2 ^ 53 < milli < 2 ^ 53 → 1 ≤ replicas < 2 ^ 53 →
  average_milli milli replicas = milli ÷ replicas.
Proof.
  intros Hm Hr. unfold average_milli, float64_div, float64_of_int.
  destruct replicas as [|pb|pb]; [lia| |lia].
  destruct milli as [|pa|pa]; unfold binary_normalize.
  - destruct (binary_round_small false pb) as (mb & -> & _); [lia|]. done.
  - destruct (float_quotient_integer_part false false pa pb) as (M & E & -> & Hint);
      [lia..|].
    unfold int64_of_float64. rewrite Hint. simpl xorb.
    rewrite Z.quot_div_nonneg by lia.
    assert (0 ≤ Z.pos pa / Z.pos pb ≤ Z.pos pa) as Hb.
    { split; [apply Z.div_pos; lia|]. apply Z.div_le_upper_bound; nia. }
    unfold int64_min, int64_max.
    destruct (Z.leb_spec (- 2 ^ 63) (Z.pos pa / Z.pos pb)); [|lia].
    destruct (Z.leb_spec (Z.pos pa / Z.pos pb) (2 ^ 63 - 1)); [done|lia].
  - destruct (float_quotient_integer_part true false pa pb) as (M & E & -> & Hint);
      [lia..|].
    unfold int64_of_float64. rewrite Hint. simpl xorb.
    change (Z.neg pa) with (- Z.pos pa).
    rewrite Z.quot_opp_l, Z.quot_div_nonneg by lia.
    assert (0 ≤ Z.pos pa / Z.pos pb ≤ Z.pos pa) as Hb.
    { split; [apply Z.div_pos; lia|]. apply Z.div_le_upper_bound; nia. }
    unfold int64_min, int64_max.
    destruct (Z.leb_spec (- 2 ^ 63) (- (Z.pos pa / Z.pos pb))); [|lia].
    destruct (Z.leb_spec (- (Z.pos pa / Z.pos pb)) (2 ^ 63 - 1)); [done|lia].
Qed.

Section skipper_average_claim.
Context {World : Type}.
Implicit Types (c : SkipperCollector World) (w : World).

End skipper_average_claim.

(** ** The collector theorems at sample inputs *)

Lemma getCollector_fan_out_witness :
  let c := sample_skipper ["www.example.org"; "api.example.org"] "Deployment" in
  let ingress := {| Rules := [ {| Host := "www.example.org" |}; {| Host := "api.example.org" |} ] |} in
  let quote := String (Ascii.ascii_of_N 34) EmptyString in
  let www_query :=
    "scalar(sum(rate(skipper_serve_host_duration_seconds_count{host="
      +:+ quote +:+ "www_example_org" +:+ quote +:+ "}[1m])))" in
  let api_query :=
    "scalar(sum(rate(skipper_serve_host_duration_seconds_count{host="
      +:+ quote +:+ "api_example_org" +:+ quote +:+ "}[1m])))" in
  let www := logged www_query (Ok [host_value www_query 900]) in
  let api := logged api_query (Ok [host_value api_query 900]) in
  GetIngress (skipper_client c) "default" "web" [] = (Ok ingress, ["ingress"]) ∧
  builds c (Rules ingress) [www; api] ∧
  getCollector c [] = (Ok (NewMaxCollector 60 [www; api]), ["ingress"]).
Proof.
  intros c ingress quote www_query api_query www api.
  assert (GetIngress (skipper_client c) "default" "web" [] = (Ok ingress, ["ingress"]))
    as Hget by reflexivity.
  assert (builds c (Rules ingress) [www; api]) as Hb
    by (repeat constructor).
  split; [exact Hget|]. split; [exact Hb|].
  exact (proj2 (proj2 (getCollector_fan_out c [] ingress ["ingress"] [www; api] Hget Hb))).
Defined.

Lemma MaxCollector_semantics_witness :
  let a := logged "a" (Ok [host_value "a" 3]) in
  let b := logged "b" (Ok [host_value "b" 7]) in
  let c := logged "c" (Ok [host_value "c" 5]) in
  let vss := [[host_value "a" 3]; [host_value "b" 7]; [host_value "c" 5]] in
  runs [a; b; c] [] vss ["a"; "b"; "c"] ∧ concat vss ≠ [] ∧
  ∃ pre r post,
    GetMetrics (NewMaxCollector 60 [a; b; c]) [] = (Ok [r], ["a"; "b"; "c"]) ∧
    concat vss = pre ++ r :: post ∧
    Forall (λ v, quantity_of v < quantity_of r) pre ∧
    Forall (λ v, quantity_of v ≤ quantity_of r) post.
Proof.
  intros a b c vss.
  assert (runs [a; b; c] [] vss ["a"; "b"; "c"]) as Hruns.
  { apply (runs_cons _ a [b; c] [] _ ["a"]); [reflexivity|].
    apply (runs_cons _ b [c] ["a"] _ ["a"; "b"]); [reflexivity|].
    apply (runs_cons _ c [] ["a"; "b"] _ ["a"; "b"; "c"]); [reflexivity|].
    apply runs_nil. }
  assert (concat vss ≠ []) as Hne by discriminate.
  split; [exact Hruns|]. split; [exact Hne|].
  exact (proj1 (MaxCollector_semantics 60) [a; b; c] [] vss ["a"; "b"; "c"] Hruns Hne).
Defined.



(** * Further properties of the store *)

(** X1. Whether it returns or panics, [insertCustomMetric] leaves the
    new entry, with the labels and a TTL fifteen minutes after the
    clock reading, at the path of the value; every other custom path
    and the whole external store are as before. *)
Theorem insertCustomMetric_effect now value labels s :
  let s' := state_after (insertCustomMetric now value labels s) in
  lookup_custom s' (identity_of value) =
    Some {| cValue := value; cLabels := labels; cTTL := now + 15 * Minute |} ∧
  (∀ j, j ≠ identity_of value → lookup_custom s' j = lookup_custom s j) ∧
  externalMetricsStore s' = externalMetricsStore s.
Proof.
  intros s'. split; [|split].
  - unfold s'. by rewrite insertCustomMetric_lookup, decide_True.
  - intros j Hj. unfold s'. by rewrite insertCustomMetric_lookup, decide_False.
  - unfold s', insertCustomMetric.
    destruct (customMetricsStore s !! _) as [metrics|]; [|done].
    destruct (metrics !! _) as [grp|]; [|done].
    by destruct (grp !! _).
Qed.

(** The message of the panic. *)
Lemma insertCustomMetric_panic_reason now value labels s msg s' :
  insertCustomMetric now value labels s = Panicked msg s' → msg = nil_map_assignment.
Proof.
  unfold insertCustomMetric.
  destruct (customMetricsStore s !! _) as [metrics|]; [|done].
  destruct (metrics !! _) as [grp|]; [|by intros [= <- _]].
  destruct (grp !! _); [done|by intros [= <- _]].
Qed.

(** X2. [insertCustomMetric] returns exactly when the metric name is
    new to the store or the store already has a namespace map for the
    group-resource and namespace of the value; in every other case it
    panics, and the panic is the assignment into a nil map. *)
Theorem insertCustomMetric_returns_exactly now value labels s :
  ((∃ s', insertCustomMetric now value labels s = Returned s') ↔
   customMetricsStore s !! custom_metrics.MetricName value = None ∨
   ∃ metrics namespaces resources,
     customMetricsStore s !! custom_metrics.MetricName value = Some metrics ∧
     metrics !! id_group (identity_of value) = Some namespaces ∧
     namespaces !! id_namespace (identity_of value) = Some resources) ∧
  (∀ msg s', insertCustomMetric now value labels s = Panicked msg s' →
             msg = nil_map_assignment).
Proof.
  split; [|by intros msg s' ?%insertCustomMetric_panic_reason].
  pose proof (insertCustomMetric_returns_iff now value labels s) as Hiff.
  destruct (insertCustomMetric now value labels s) as [s'|msg s'] eqn:Hins; cbn [returns] in Hiff.
  - split; [intros _|by eauto].
    destruct (customMetricsStore s !! custom_metrics.MetricName value)
      as [metrics|] eqn:Hm; [right|by left].
    destruct (metrics !! id_group (identity_of value)) as [namespaces|] eqn:Hg.
    + destruct (namespaces !! id_namespace (identity_of value)) as [r|] eqn:Hr; [by eauto 6|].
      assert (true = false); [|done]. apply Hiff. exists metrics.
      split; [done|]. by rewrite Hg.
    + assert (true = false); [|done]. apply Hiff. exists metrics.
      split; [done|]. by rewrite Hg.
  - split; [by intros [? ?]|]. destruct Hiff as [Hiff _].
    destruct (Hiff eq_refl) as (metrics & Hm & Hnone).
    intros [Hnew|(metrics' & namespaces & resources & Hm' & Hg & Hr)]; [congruence|].
    assert (metrics' = metrics) as -> by congruence.
    rewrite Hg in Hnone. simpl in Hnone, Hr. congruence.
Qed.


Lemma one_group_insertCustomMetric now value labels s s' :
  one_group s → insertCustomMetric now value labels s = Returned s' → one_group s'.
Proof.
  unfold insertCustomMetric.
  set (m0 := custom_metrics.MetricName value).
  set (g0 := groupResourceOf _). set (ns0 := custom_metrics.Namespace _).
  set (n0 := custom_metrics.Name _).
  intros Hone Hret m groups g1 g2 Hm' H1 H2.
  destruct (customMetricsStore s !! m0) as [metrics|] eqn:Hm.
  - destruct (metrics !! g0) as [grp|] eqn:Hg; [|done].
    destruct (grp !! ns0) as [r|] eqn:Hns; [|done].
    injection Hret as <-. simpl in Hm'.
    destruct (decide (m = m0)) as [->|];
      [rewrite lookup_insert_eq in Hm'; injection Hm' as <-
      |rewrite lookup_insert_ne in Hm' by done; by eapply Hone].
    apply (Hone m0 metrics); [done| |].
    + destruct (decide (g1 = g0)) as [->|]; [eauto|].
      by rewrite lookup_insert_ne in H1.
    + destruct (decide (g2 = g0)) as [->|]; [eauto|].
      by rewrite lookup_insert_ne in H2.
  - injection Hret as <-. simpl in Hm'.
    destruct (decide (m = m0)) as [->|];
      [rewrite lookup_insert_eq in Hm'; injection Hm' as <-
      |rewrite lookup_insert_ne in Hm' by done; by eapply Hone].
    destruct H1 as [? [-> _]%lookup_singleton_Some].
    by destruct H2 as [? [-> _]%lookup_singleton_Some].
Qed.

Lemma one_group_reachable {RO : RangeOrder} s : reachable s → one_group s.
Proof.
  induction 1 as [|now value s s' _ IH Hins|clock_c clock_e s _ IH].
  - intros m groups g1 g2 Hm. simpl in Hm. by rewrite lookup_empty in Hm.
  - unfold Insert in Hins. destruct (Type_ value).
    + by eapply one_group_insertCustomMetric.
    + by eapply one_group_insertCustomMetric.
    + injection Hins as <-. unfold insertExternalMetric.
      by destruct (externalMetricsStore s !! _).
    + by injection Hins as <-.
  - intros m groups g1 g2 Hm H1 H2; simpl in Hm.
    apply prune_range_inside in Hm as (groups0 & Hm & ->).
    apply (IH m groups0); [done| |].
    + destruct H1 as [r H1]. apply prune_range_inside in H1 as (? & ? & _). eauto.
    + destruct H2 as [r H2]. apply prune_range_inside in H2 as (? & ? & _). eauto.
Qed.

(** X3. In a store reached by inserts that returned and by sweeps, a
    custom insert that returns is read back: [GetMetricsByName] at the
    metric name, group-resource, namespace and object name of the
    value gives the value, also when the namespace is empty. *)
Theorem reachable_insert_read_back {RO : RangeOrder} now (value : CollectedMetric) s s' :
  reachable s →
  Type_ value = ObjectMetricSourceType ∨ Type_ value = PodsMetricSourceType →
  Insert now value s = Returned s' →
  GetMetricsByName (id_metric (identity_of (Custom value)))
    (id_group (identity_of (Custom value)))
    (id_namespace (identity_of (Custom value)))
    (id_name (identity_of (Custom value))) s' = Some (Custom value).
Proof.
  intros Hreach Hty Hins. eapply returned_insert_read_back; [done|].
  unfold Insert in Hins. by destruct Hty as [Hty|Hty]; rewrite Hty in Hins.
Qed.

(** X4. In a store reached by inserts that returned and by sweeps, all
    entries of one metric name share their group-resource and their
    namespace. *)
Theorem reachable_metric_in_one_place {RO : RangeOrder} s i j :
  reachable s →
  is_Some (lookup_custom s i) → is_Some (lookup_custom s j) →
  id_metric i = id_metric j →
  id_group i = id_group j ∧ id_namespace i = id_namespace j.
Proof.
  intros Hreach [smi Hi] [smj Hj] Hm.
  pose proof (one_group_reachable s Hreach) as Hg.
  pose proof (one_namespace_reachable s Hreach) as Hn.
  destruct i as [mi gi nsi ni], j as [mj gj nsj nj]. simpl in Hm. subst mj.
  unfold lookup_custom in Hi, Hj. simpl in *.
  destruct (customMetricsStore s !! mi) as [groups|] eqn:Hgroups; [|done].
  simpl in *.
  destruct (groups !! gi) as [nsmi|] eqn:Hgi; [|done].
  destruct (groups !! gj) as [nsmj|] eqn:Hgj; [|done].
  assert (gi = gj) as <- by (eapply Hg; eauto).
  assert (nsmj = nsmi) as -> by congruence.
  simpl in *.
  destruct (nsmi !! nsi) as [ri|] eqn:Hri; [|done].
  destruct (nsmi !! nsj) as [rj|] eqn:Hrj; [|done].
  split; [done|]. eapply Hn; eauto.
Qed.

(** X5. Insert, sweep, look up: after a custom insert at clock reading
    [now], a sweep whose reading at the entry is [t] leaves the value
    to be found by [GetMetricsByName] unless [now] plus fifteen minutes
    is before [t], in which case the lookup finds nothing. *)
Theorem insert_sweep_lookup {RO : RangeOrder} now value labels s clock_c clock_e :
  id_namespace (identity_of value) ≠ "" →
  let i := identity_of value in
  let t := clock_c (id_metric i) (id_group i) (id_namespace i) (id_name i) in
  GetMetricsByName (id_metric i) (id_group i) (id_namespace i) (id_name i)
    (RemoveExpired clock_c clock_e
       (state_after (insertCustomMetric now value labels s)))
  = if bool_decide (now + 15 * Minute < t) then None else Some value.
Proof.
  intros Hns i t. rewrite GetMetricsByName_exact by done.
  change {| id_metric := _; id_group := _; id_namespace := _; id_name := _ |} with i.
  rewrite RemoveExpired_lookup_custom, insertCustomMetric_lookup, decide_True by done.
  unfold t, i. simpl. change (TTL_of now) with (now + 15 * Minute).
  by destruct (bool_decide _).
Qed.

(** X7. What a sweep keeps: an entry is found after [RemoveExpired]
    exactly when it was there before and its TTL is not before the
    clock reading taken at it; the sweep adds and alters nothing. *)
Theorem RemoveExpired_survivors {RO : RangeOrder} clock_c clock_e s :
  (∀ i sm,
     lookup_custom (RemoveExpired clock_c clock_e s) i = Some sm ↔
     lookup_custom s i = Some sm ∧
     ¬ cTTL sm < clock_c (id_metric i) (id_group i) (id_namespace i) (id_name i)) ∧
  (∀ m k sm,
     lookup_external (RemoveExpired clock_c clock_e s) m k = Some sm ↔
     lookup_external s m k = Some sm ∧ ¬ eTTL sm < clock_e m k).
Proof.
  split.
  - intros i sm. rewrite RemoveExpired_lookup_custom.
    destruct (lookup_custom s i) as [sm0|]; simpl; [|by split; [|intros [? _]]].
    case_bool_decide as Hexp.
    + split; [done|]. intros [[= ->] Hn]. by destruct Hn.
    + split; [by intros [= <-]|by intros [[= <-] _]].
  - intros m k sm. rewrite RemoveExpired_lookup_external.
    destruct (lookup_external s m k) as [sm0|]; simpl; [|by split; [|intros [? _]]].
    case_bool_decide as Hexp.
    + split; [done|]. intros [[= ->] Hn]. by destruct Hn.
    + split; [by intros [= <-]|by intros [[= <-] _]].
Qed.

(** *** The sweep does not depend on the order of the ranges *)






(** *** Listing and external reads *)

Section listing_facts.
Context {RO : RangeOrder}.

Lemma elem_of_ListAllMetrics s info :
  info ∈ ListAllMetrics s ↔
  ∃ groups namespaces ns,
    customMetricsStore s !! provider.Metric info = Some groups ∧
    groups !! provider.GroupResource info = Some namespaces ∧
    is_Some (namespaces !! ns) ∧
    provider.Namespaced info = bool_decide (ns ≠ "").
Proof.
  unfold ListAllMetrics. split.
  - intros ([m groups] & Hin & Hm%range_elem_of)%list_elem_of_bind.
    apply list_elem_of_bind in Hin as ([g namespaces] & Hin & Hg%range_elem_of).
    apply list_elem_of_fmap in Hin as ([ns resources] & -> & Hns%range_elem_of).
    simpl in *. exists groups, namespaces, ns. eauto.
  - intros (groups & namespaces & ns & Hm & Hg & [resources Hns] & Hnsd).
    apply list_elem_of_bind. exists (provider.Metric info, groups).
    split; [|by apply range_elem_of].
    apply list_elem_of_bind. exists (provider.GroupResource info, namespaces).
    split; [|by apply range_elem_of].
    apply list_elem_of_fmap. exists (ns, resources).
    split; [|by apply range_elem_of]. destruct info; simpl in *. by rewrite Hnsd.
Qed.
End listing_facts.

Section listing_theorems.
Context {RO : RangeOrder}.

(** X8. Every stored custom entry is listed: [ListAllMetrics] holds
    the info with the metric name and group-resource of the entry,
    marked namespaced unless its namespace is empty. *)
Theorem ListAllMetrics_lists_entries s i sm :
  lookup_custom s i = Some sm → info_of i ∈ ListAllMetrics s.
Proof.
  destruct i as [m g ns n]. unfold lookup_custom; simpl. intros Hl.
  destruct (customMetricsStore s !! m) as [groups|] eqn:Hm; simpl in Hl; [|done].
  destruct (groups !! g) as [namespaces|] eqn:Hg; simpl in Hl; [|done].
  destruct (namespaces !! ns) as [resources|] eqn:Hns; simpl in Hl; [|done].
  apply elem_of_ListAllMetrics. exists groups, namespaces, ns. simpl. eauto.
Qed.

(** X9. After a sweep the listing names only what is still stored:
    every info [ListAllMetrics] gives for the swept store belongs to
    an entry that the sweep kept. *)
Theorem ListAllMetrics_after_RemoveExpired clock_c clock_e s info :
  info ∈ ListAllMetrics (RemoveExpired clock_c clock_e s) →
  ∃ i sm, lookup_custom (RemoveExpired clock_c clock_e s) i = Some sm ∧
          info = info_of i.
Proof.
  pose proof (RemoveExpired_no_empty_maps clock_c clock_e s) as [Hne _].
  generalize dependent (RemoveExpired clock_c clock_e s). intros s' Hne.
  intros (groups & namespaces & ns & Hm & Hg & [resources Hns] & Hnsd)%elem_of_ListAllMetrics.
  destruct (Hne _ _ Hm) as [_ Hne1]. destruct (Hne1 _ _ Hg) as [_ Hne2].
  pose proof (Hne2 _ _ Hns) as Hres.
  apply map_choose in Hres as (n & sm & Hn).
  exists {| id_metric := provider.Metric info; id_group := provider.GroupResource info;
            id_namespace := ns; id_name := n |}, sm.
  split.
  - unfold lookup_custom; simpl. rewrite Hm; simpl. rewrite Hg; simpl. by rewrite Hns.
  - destruct info; unfold info_of; simpl in *. by rewrite Hnsd.
Qed.

Lemma elem_of_ListAllExternalMetrics s info :
  info ∈ ListAllExternalMetrics s ↔
  ∃ k sm, lookup_external s (provider.EMetric info) k = Some sm ∧
          provider.ELabels info = external_metrics.MetricLabels (eValue sm).
Proof.
  unfold ListAllExternalMetrics, lookup_external. split.
  - intros ([m metrics] & Hin & Hm%range_elem_of)%list_elem_of_bind.
    apply list_elem_of_fmap in Hin as ([k sm] & -> & Hk%range_elem_of).
    simpl in *. exists k, sm. by rewrite Hm.
  - intros (k & sm & Hl & Hlab).
    destruct (externalMetricsStore s !! provider.EMetric info) as [metrics|] eqn:Hm;
      simpl in Hl; [|done].
    apply list_elem_of_bind. exists (provider.EMetric info, metrics).
    split; [|by apply range_elem_of].
    apply list_elem_of_fmap. exists (k, sm). split; [|by apply range_elem_of].
    destruct info; simpl in *. by rewrite Hlab.
Qed.

Lemma insertExternalMetric_lookup now e s m k :
  lookup_external (insertExternalMetric now e s) m k =
  if decide ((m, k) = (external_metrics.MetricName e,
                       hashLabelMap (external_metrics.MetricLabels e)))
  then Some {| eValue := e; eTTL := TTL_of now |}
  else lookup_external s m k.
Proof.
  unfold insertExternalMetric, lookup_external.
  destruct (externalMetricsStore s !! _) as [metrics|] eqn:Hm; simpl;
    (case_decide as Hmk; [injection Hmk as -> ->; by simplify_map_eq|]);
    (destruct (decide (m = external_metrics.MetricName e)) as [->|];
       simplify_map_eq; [|done]);
    (destruct (decide (k = hashLabelMap (external_metrics.MetricLabels e))) as [->|];
       simplify_map_eq; done).
Qed.

Lemma elem_of_GetExternalMetric namespace metricName selector s v :
  (∃ items, GetExternalMetric namespace metricName selector s = Ok items ∧ v ∈ items) ↔
  ∃ k sm, lookup_external s metricName k = Some sm ∧
          selector (external_metrics.MetricLabels (eValue sm)) = true ∧ eValue sm = v.
Proof.
  unfold GetExternalMetric, lookup_external.
  destruct (externalMetricsStore s !! metricName) as [metrics|]; simpl.
  - split.
    + intros (items & [= <-] & ([k sm] & Hk%range_elem_of & Hsel)%list_elem_of_omap).
      simpl in Hsel. exists k, sm.
      destruct (selector _) eqn:E; [|done]. by injection Hsel as <-.
    + intros (k & sm & Hk & Hsel & <-). eexists. split; [done|].
      apply list_elem_of_omap. exists (k, sm). split; [by apply range_elem_of|].
      simpl. by rewrite Hsel.
  - split.
    + intros (items & [= <-] & Hin). by apply elem_of_nil in Hin.
    + by intros (k & sm & ? & _).
Qed.

(** X10. An external metric is stored under its name and the key of
    its labels, replacing what was there; all other external entries
    and the custom store stay as they were; and the listing of
    external metrics gives the name and labels of exactly the stored
    entries. *)
Theorem insertExternalMetric_effect now e s :
  let s' := insertExternalMetric now e s in
  let name := external_metrics.MetricName e in
  let key := hashLabelMap (external_metrics.MetricLabels e) in
  lookup_external s' name key = Some {| eValue := e; eTTL := now + 15 * Minute |} ∧
  (∀ m k, (m, k) ≠ (name, key) → lookup_external s' m k = lookup_external s m k) ∧
  customMetricsStore s' = customMetricsStore s ∧
  {| provider.EMetric := name; provider.ELabels := external_metrics.MetricLabels e |}
    ∈ ListAllExternalMetrics s' ∧
  (∀ info, info ∈ ListAllExternalMetrics s' ↔
     ∃ k sm, lookup_external s' (provider.EMetric info) k = Some sm ∧
             provider.ELabels info = external_metrics.MetricLabels (eValue sm)).
Proof.
  intros s' name key.
  assert (lookup_external s' name key = Some {| eValue := e; eTTL := now + 15 * Minute |})
    as Hl by (unfold s'; by rewrite insertExternalMetric_lookup, decide_True).
  split; [done|]. split; [|split; [|split]].
  - intros m k Hmk. unfold s'. by rewrite insertExternalMetric_lookup, decide_False.
  - unfold s', insertExternalMetric. by destruct (externalMetricsStore s !! _).
  - apply elem_of_ListAllExternalMetrics. simpl. eauto.
  - apply elem_of_ListAllExternalMetrics.
Qed.

(** X11. [GetExternalMetric] never fails and never reads the
    namespace: for any namespace it returns a list that holds exactly
    the values stored under the metric name whose labels the selector
    matches, so an unknown name gives the empty list; and a value just
    inserted is returned when the selector matches its labels. *)
Theorem GetExternalMetric_returns_matches namespace metricName selector s :
  ∃ items,
    GetExternalMetric namespace metricName selector s = Ok items ∧
    (∀ v, v ∈ items ↔
       ∃ k sm, lookup_external s metricName k = Some sm ∧
               selector (external_metrics.MetricLabels (eValue sm)) = true ∧
               eValue sm = v) ∧
    (externalMetricsStore s !! metricName = None → items = []) ∧
    (∀ now e, external_metrics.MetricName e = metricName →
       selector (external_metrics.MetricLabels e) = true →
       ∃ items', GetExternalMetric namespace metricName selector
                   (insertExternalMetric now e s) = Ok items' ∧ e ∈ items').
Proof.
  eexists. split; [reflexivity|]. split; [|split].
  - intros v. rewrite <- (elem_of_GetExternalMetric namespace metricName selector s v).
    split; [by eauto|]. by intros (items & [= <-] & Hin).
  - by intros ->.
  - intros now e Hname Hsel.
    apply elem_of_GetExternalMetric.
    exists (hashLabelMap (external_metrics.MetricLabels e)), {| eValue := e; eTTL := TTL_of now |}.
    split; [|done]. by rewrite insertExternalMetric_lookup, Hname, decide_True.
Qed.
End listing_theorems.

(** *** Identities that collide *)

(** X12. Kinds other than [Pod] and [Ingress] are all filed under the
    zero group-resource: two values of such kinds with the same metric
    name, namespace and object name have one identity, so inserting
    the second returns and replaces the first. *)
Theorem unmapped_kinds_share_identity now1 now2 v1 v2 labels1 labels2 s :
  custom_metrics.Kind (custom_metrics.DescribedObject v1) ≠ "Pod" →
  custom_metrics.Kind (custom_metrics.DescribedObject v1) ≠ "Ingress" →
  custom_metrics.Kind (custom_metrics.DescribedObject v2) ≠ "Pod" →
  custom_metrics.Kind (custom_metrics.DescribedObject v2) ≠ "Ingress" →
  custom_metrics.MetricName v1 = custom_metrics.MetricName v2 →
  custom_metrics.Namespace (custom_metrics.DescribedObject v1)
    = custom_metrics.Namespace (custom_metrics.DescribedObject v2) →
  custom_metrics.Name (custom_metrics.DescribedObject v1)
    = custom_metrics.Name (custom_metrics.DescribedObject v2) →
  let s1 := state_after (insertCustomMetric now1 v1 labels1 s) in
  id_group (identity_of v1) = schema.zero ∧
  identity_of v1 = identity_of v2 ∧
  ∃ s2, insertCustomMetric now2 v2 labels2 s1 = Returned s2 ∧
        lookup_custom s2 (identity_of v1) =
          Some {| cValue := v2; cLabels := labels2; cTTL := now2 + 15 * Minute |} ∧
        entries_at s2 (identity_of v1) = 1%nat.
Proof.
  intros Hp1 Hi1 Hp2 Hi2 Hm Hns Hn s1.
  assert (∀ v, custom_metrics.Kind (custom_metrics.DescribedObject v) ≠ "Pod" →
               custom_metrics.Kind (custom_metrics.DescribedObject v) ≠ "Ingress" →
               id_group (identity_of v) = schema.zero) as Hzero.
  { intros v Hp Hi. unfold identity_of, groupResourceOf; simpl.
    by rewrite !decide_False. }
  assert (identity_of v1 = identity_of v2) as Hid.
  { pose proof (Hzero v1 Hp1 Hi1) as H1. pose proof (Hzero v2 Hp2 Hi2) as H2.
    unfold identity_of in *; simpl in *. by rewrite H1, H2, Hm, Hns, Hn. }
  split; [by apply Hzero|]. split; [done|].
  assert (is_Some (lookup_custom s1 (identity_of v2))) as [old Hold].
  { unfold s1. rewrite insertCustomMetric_lookup, decide_True by done. eauto. }
  pose proof (insertCustomMetric_lookup now2 v2 labels2 s1) as Hlk.
  assert (∃ s2, insertCustomMetric now2 v2 labels2 s1 = Returned s2) as [s2 Hs2].
  { revert Hold. unfold insertCustomMetric, lookup_custom, identity_of; simpl.
    destruct (customMetricsStore s1 !! _) as [metrics|]; simpl; [|done].
    destruct (metrics !! _) as [grp|]; simpl; [|done].
    destruct (grp !! _) as [r|]; simpl; [|done]. eauto. }
  rewrite Hs2 in Hlk. simpl in Hlk. exists s2. split; [done|].
  rewrite Hid. split; [by rewrite Hlk, decide_True|].
  eapply entries_at_present. by rewrite Hlk, decide_True.
Qed.

Lemma string_app_assoc (s1 s2 s3 : string) : (s1 +:+ s2) +:+ s3 = s1 +:+ s2 +:+ s3.
Proof.
  induction s1 as [|c s1 IH]; [done|].
  change (String c ((s1 +:+ s2) +:+ s3) = String c (s1 +:+ s2 +:+ s3)). by rewrite IH.
Qed.

Lemma sort_Strings_sorted_id l : Sorted String.le l → sort_Strings l = l.
Proof.
  intros Hl. apply (Sorted_unique String.le); [apply sort_Strings_sorted|done|].
  apply sort_Strings_perm.
Qed.

Lemma hashLabelMap_one {RO : RangeOrder} (k v : string) :
  hashLabelMap {[k := v]} = k +:+ "=" +:+ v.
Proof.
  rewrite hashLabelMap_canonical. unfold label_strings.
  rewrite map_to_list_singleton. cbn [fmap list_fmap fst snd].
  rewrite sort_Strings_sorted_id; [done|]. repeat constructor.
Qed.

Lemma hashLabelMap_two {RO : RangeOrder} (k v k' v' : string) :
  k ≠ k' → String.le (k +:+ "=" +:+ v) (k' +:+ "=" +:+ v') →
  hashLabelMap (<[k := v]> {[k' := v']})
  = (k +:+ "=" +:+ v) +:+ "," +:+ (k' +:+ "=" +:+ v').
Proof.
  intros Hne Hle. rewrite hashLabelMap_canonical. unfold label_strings.
  rewrite (sort_Strings_Permutation _ [k +:+ "=" +:+ v; k' +:+ "=" +:+ v']).
  - rewrite sort_Strings_sorted_id; [done|]. repeat constructor. done.
  - rewrite map_to_list_insert by (by apply lookup_singleton_ne).
    by rewrite map_to_list_singleton.
Qed.

(** X13. The key of an external metric does not tell label sets
    apart: for every map of two labels there is a map of one label,
    a different map, with the same key, whatever the range orders; so
    a metric inserted with the one replaces a metric of the same name
    stored with the other. *)
Theorem hashLabelMap_not_injective (RO1 RO2 : RangeOrder) (k v k' v' : string) :
  k ≠ k' →
  let two : Labels := <[k := v]> {[k' := v']} in
  ∃ k1 v1 : string,
    let one : Labels := {[k1 := v1]} in
    one ≠ two ∧ @hashLabelMap RO1 one = @hashLabelMap RO2 two ∧
    ∀ now1 now2 e1 e2 s,
      external_metrics.MetricLabels e1 = two →
      external_metrics.MetricLabels e2 = one →
      external_metrics.MetricName e1 = external_metrics.MetricName e2 →
      lookup_external
        (@insertExternalMetric RO1 now2 e2 (@insertExternalMetric RO2 now1 e1 s))
        (external_metrics.MetricName e1) (@hashLabelMap RO2 two)
      = Some {| eValue := e2; eTTL := now2 + 15 * Minute |}.
Proof.
  intros Hne two.
  assert (∀ k1 v1 : string, ({[k1 := v1]} : Labels) ≠ two) as Hdiff.
  { intros k1 v1 Heq. apply (f_equal size) in Heq.
    unfold two in Heq. rewrite map_size_singleton in Heq.
    rewrite map_size_insert_None in Heq by (by apply lookup_singleton_ne).
    by rewrite map_size_singleton in Heq. }
  assert (∀ k1 v1 : string,
            @hashLabelMap RO1 {[k1 := v1]} = @hashLabelMap RO2 two →
            ∀ now1 now2 e1 e2 s,
              external_metrics.MetricLabels e1 = two →
              external_metrics.MetricLabels e2 = {[k1 := v1]} →
              external_metrics.MetricName e1 = external_metrics.MetricName e2 →
              lookup_external
                (@insertExternalMetric RO1 now2 e2 (@insertExternalMetric RO2 now1 e1 s))
                (external_metrics.MetricName e1) (@hashLabelMap RO2 two)
              = Some {| eValue := e2; eTTL := now2 + 15 * Minute |}) as Hover.
  { intros k1 v1 Hkey now1 now2 e1 e2 s H1 H2 Hname.
    rewrite insertExternalMetric_lookup, decide_True; [done|].
    by rewrite H2, Hkey, Hname. }
  destruct (total String.le (k +:+ "=" +:+ v) (k' +:+ "=" +:+ v')) as [Hle|Hle].
  - assert (@hashLabelMap RO1 {[k := v +:+ "," +:+ k' +:+ "=" +:+ v']}
            = @hashLabelMap RO2 two) as Hkey.
    { unfold two. rewrite hashLabelMap_one, hashLabelMap_two by done.
      by rewrite !string_app_assoc. }
    exists k, (v +:+ "," +:+ k' +:+ "=" +:+ v').
    split; [apply Hdiff|]. split; [done|by apply Hover].
  - assert (@hashLabelMap RO1 {[k' := v' +:+ "," +:+ k +:+ "=" +:+ v]}
            = @hashLabelMap RO2 two) as Hkey.
    { assert (two = <[k' := v']> {[k := v]}) as ->.
      { unfold two. rewrite <- !insert_empty. by apply insert_insert_ne. }
      rewrite hashLabelMap_one, hashLabelMap_two by done.
      by rewrite !string_app_assoc. }
    exists k', (v' +:+ "," +:+ k +:+ "=" +:+ v).
    split; [apply Hdiff|]. split; [done|by apply Hover].
Qed.

(** *** Selector and wildcard reads *)

Section read_facts.
Context {RO : RangeOrder}.

Lemma elem_of_matching selector (metricMap : resourceMap) v :
  v ∈ matching selector metricMap ↔
  ∃ name sm, metricMap !! name = Some sm ∧ selector (cLabels sm) = true ∧ cValue sm = v.
Proof. rewrite matching_selected. apply elem_of_selected. Qed.

(** What a selector query returns, as a set: the values of the entries
    under the metric name and group-resource, in the given namespace
    or in any if none is given, whose labels match. *)
Lemma elem_of_GetMetricsBySelector m g ns selector s items v :
  GetMetricsBySelector m g ns selector s = Some items →
  v ∈ items ↔
  ∃ ns' n sm,
    (ns = "" ∨ ns' = ns) ∧
    lookup_custom s {| id_metric := m; id_group := g; id_namespace := ns'; id_name := n |}
      = Some sm ∧
    selector (cLabels sm) = true ∧ cValue sm = v.
Proof.
  unfold GetMetricsBySelector, lookup_custom; simpl.
  destruct (customMetricsStore s !! m) as [groups|]; simpl; [|done].
  destruct (groups !! g) as [namespaces|]; simpl; [|done].
  case_decide as Hns.
  - intros [= <-]. rewrite list_elem_of_bind. split.
    + intros ([ns' mm] & (n & sm & Hn & Hsel & Hv)%elem_of_matching & Hin%range_elem_of).
      exists ns', n, sm. simpl in *. rewrite Hin. simpl. eauto.
    + intros (ns' & n & sm & _ & Hl & Hsel & Hv).
      destruct (namespaces !! ns') as [mm|] eqn:Hmm; simpl in Hl; [|done].
      exists (ns', mm). split; [|by apply range_elem_of].
      apply elem_of_matching. eauto.
  - destruct (namespaces !! ns) as [mm|] eqn:Hmm; intros [= <-].
    + rewrite elem_of_matching. split.
      * intros (n & sm & Hn & Hsel & Hv). exists ns, n, sm. rewrite Hmm. simpl. eauto.
      * intros (ns' & n & sm & [?| ->] & Hl & Hsel & Hv); [done|].
        rewrite Hmm in Hl. simpl in Hl. eauto.
    + split; [by intros ?%elem_of_nil|].
      intros (ns' & n & sm & [?| ->] & Hl & _); [done|]. by rewrite Hmm in Hl.
Qed.

(** X14. Insert, then select: in the state a custom insert leaves, a
    selector query for the metric name and group-resource of the
    value, in its namespace or in all namespaces, returns a list, and
    the list holds the value whenever the selector matches the labels
    given with it; every value such a query returns is stored under
    that name and group-resource with labels the selector matches. *)
Theorem insert_then_select now value labels selector s ns :
  ns = "" ∨ ns = id_namespace (identity_of value) →
  let i := identity_of value in
  let s' := state_after (insertCustomMetric now value labels s) in
  ∃ items,
    GetMetricsBySelector (id_metric i) (id_group i) ns selector s' = Some items ∧
    (selector labels = true → value ∈ items) ∧
    (∀ v, v ∈ items →
       ∃ j sm, lookup_custom s' j = Some sm ∧ id_metric j = id_metric i ∧
               id_group j = id_group i ∧ selector (cLabels sm) = true ∧ cValue sm = v).
Proof.
  intros Hns i s'.
  pose proof (insertCustomMetric_lookup now value labels s i) as Hlk.
  rewrite decide_True in Hlk by done. fold s' in Hlk.
  assert (∃ items, GetMetricsBySelector (id_metric i) (id_group i) ns selector s'
                   = Some items) as [items Hitems].
  { revert Hlk. unfold GetMetricsBySelector, lookup_custom.
    destruct (customMetricsStore s' !! _) as [groups|]; simpl; [|done].
    destruct (groups !! _) as [namespaces|]; simpl; [|done].
    intros _. case_decide; [by eexists|]. destruct (namespaces !! ns); by eexists. }
  exists items. split; [done|]. split.
  - intros Hsel. apply (elem_of_GetMetricsBySelector _ _ _ _ _ _ _ Hitems).
    exists (id_namespace i), (id_name i), {| cValue := value; cLabels := labels; cTTL := TTL_of now |}.
    split; [destruct Hns; auto|]. split; [|done]. by destruct i.
  - intros v (ns' & n & sm & _ & Hl & Hsel & Hv)%(elem_of_GetMetricsBySelector _ _ _ _ _ _ _ Hitems).
    eexists _, sm. split; [exact Hl|]. done.
Qed.

Lemma first_named_Some name l v :
  first_named name l = Some v →
  ∃ ns mm sm, (ns, mm) ∈ l ∧ mm !! name = Some sm ∧ cValue sm = v.
Proof.
  induction l as [|[ns mm] l IH]; simpl; [done|].
  destruct (mm !! name) as [sm|] eqn:Hn.
  - intros [= <-]. exists ns, mm, sm. split; [left|done].
  - intros (ns' & mm' & sm & Hin & Hsm)%IH. exists ns', mm', sm. split; [by right|done].
Qed.

Lemma first_named_None name l :
  first_named name l = None → ∀ ns mm, (ns, mm) ∈ l → mm !! name = None.
Proof.
  induction l as [|[ns mm] l IH]; simpl; [by intros _ ns mm ?%elem_of_nil|].
  destruct (mm !! name) as [sm|] eqn:Hn; [done|].
  intros Hrest ns' mm' [[= -> ->]|Hin]%elem_of_cons; [done|by eapply IH].
Qed.

(** X15. A lookup by name without a namespace searches them all: it
    finds nothing exactly when no namespace under the metric name and
    group-resource holds the object name, and what it finds is the
    value stored for that object name in one of the namespaces. *)
Theorem GetMetricsByName_any_namespace m g n s :
  match GetMetricsByName m g "" n s with
  | Some v =>
      ∃ ns sm,
        lookup_custom s {| id_metric := m; id_group := g; id_namespace := ns; id_name := n |}
          = Some sm ∧ cValue sm = v
  | None =>
      ∀ ns,
        lookup_custom s {| id_metric := m; id_group := g; id_namespace := ns; id_name := n |}
          = None
  end.
Proof.
  unfold GetMetricsByName, lookup_custom; simpl.
  destruct (customMetricsStore s !! m) as [groups|]; simpl; [|done].
  destruct (groups !! g) as [namespaces|]; simpl; [|done].
  destruct (first_named n (range namespaces)) as [v|] eqn:Hf.
  - apply first_named_Some in Hf as (ns & mm & sm & Hin%range_elem_of & Hn & Hv).
    exists ns, sm. by rewrite Hin.
  - intros ns. destruct (namespaces !! ns) as [mm|] eqn:Hmm; simpl; [|done].
    eapply first_named_None; [done|]. by apply range_elem_of.
Qed.
End read_facts.

(** * Further properties of the collectors *)

Section skipper_inversion.
Context {World : Type}.
Implicit Types (c : SkipperCollector World) (w : World).

(** X16. A skipper collector succeeds only along one path: if
    [GetMetrics] returns values, the collector was built, its delegate
    returned exactly one value, at least one ready replica was read,
    and the values are one value, the delegate's in everything but
    the quantity, whose milli quantity is the per-replica average. *)
Theorem SkipperCollector_GetMetrics_success c w values w' :
  SkipperCollector_GetMetrics c w = (Ok values, w') →
  ∃ collector w1 value w2 replicas r,
    getCollector c w = (Ok collector, w1) ∧
    GetMetrics collector w1 = (Ok [value], w2) ∧
    targetRefReplicas (skipper_client c) (skipper_hpa c) w2 = (Ok replicas, w') ∧
    1 ≤ replicas ∧
    values = [r] ∧
    custom_metrics.Value (Custom r)
      = average_milli (custom_metrics.Value (Custom value)) replicas ∧
    Type_ r = Type_ value ∧
    custom_metrics.DescribedObject (Custom r)
      = custom_metrics.DescribedObject (Custom value) ∧
    custom_metrics.MetricName (Custom r) = custom_metrics.MetricName (Custom value) ∧
    custom_metrics.Timestamp (Custom r) = custom_metrics.Timestamp (Custom value) ∧
    External r = External value ∧
    CLabels r = CLabels value.
Proof.
  unfold SkipperCollector_GetMetrics, bind.
  destruct (getCollector c w) as [[collector|e] w1] eqn:Hc; [|done].
  destruct (GetMetrics collector w1) as [[vs|e] w2] eqn:Hv; [|done].
  destruct vs as [|value [|v2 rest]]; [done| |done].
  destruct (targetRefReplicas (skipper_client c) (skipper_hpa c) w2)
    as [[replicas|e] w3] eqn:Hr; [|done].
  case_decide as Hrep; [done|]. intros [= <- <-].
  exists collector, w1, value, w2, replicas. eexists.
  split; [done|]. split; [done|]. split; [done|]. split; [lia|].
  split; [reflexivity|]. done.
Qed.


(** X18. A skipper collector built for an HPA whose scale target is
    neither a deployment nor a stateful set never returns a value:
    every call of [GetMetrics] fails. *)
Theorem skipper_unsupported_target_always_fails
    (p : SkipperCollectorPlugin World) hpa config interval c :
  SkipperCollectorPlugin_NewCollector p hpa config interval = Ok c →
  TargetKind (ScaleTargetRef hpa) ≠ "Deployment" →
  TargetKind (ScaleTargetRef hpa) ≠ "StatefulSet" →
  ∀ w, ∃ e w', SkipperCollector_GetMetrics c w = (Err e, w').
Proof.
  unfold SkipperCollectorPlugin_NewCollector.
  case_decide; [|done]. intros [= <-] Hd Hs w.
  unfold SkipperCollector_GetMetrics, bind.
  destruct (getCollector _ w) as [[collector|e] w1]; [|by eauto].
  destruct (GetMetrics collector w1) as [[vs|e] w2]; [|by eauto].
  destruct vs as [|value [|v2 rest]]; [by eauto| |by eauto].
  simpl. rewrite targetRefReplicas_unsupported by done.
  rewrite decide_True by lia. by eauto.
Qed.

(** X19. How [getCollector] fails, and what it touches: an error of
    the ingress read is passed on; the error of the plugin at the
    first host it refuses is passed on; and in every case the world
    is the one the ingress read left, so no backend is asked. *)
Theorem getCollector_failures c w :
  let get := GetIngress (skipper_client c)
               (custom_metrics.Namespace (skipper_objectReference c))
               (custom_metrics.Name (skipper_objectReference c)) in
  (∀ e w1, get w = (Err e, w1) → getCollector c w = (Err e, w1)) ∧
  (∀ ingress w1 rules1 rule rules2 collectors e,
     get w = (Ok ingress, w1) →
     Rules ingress = rules1 ++ rule :: rules2 →
     builds c rules1 collectors →
     skipper_plugin c (skipper_hpa c) (host_config (skipper_config c) rule)
                    (skipper_interval c) = Err e →
     getCollector c w = (Err e, w1)) ∧
  (getCollector c w).2 = (get w).2.
Proof.
  intros get. unfold getCollector, bind. fold get. split; [|split].
  - by intros e w1 ->.
  - intros ingress w1 rules1 rule rules2 collectors e -> Hrules Hb He.
    by rewrite Hrules, (host_collectors_error _ _ _ _ _ _ _ Hb He).
  - destruct (get w) as [[ingress|e] w1]; [|done]. simpl.
    destruct (host_collectors c (Rules ingress) []) as [collectors|e]; [|done].
    case_decide; [done|]. by destruct collectors as [|c1 [|c2 rest]].
Qed.
End skipper_inversion.

(** *** Host names and queries *)

Lemma string_length_app (s t : string) :
  String.length (s +:+ t) = (String.length s + String.length t)%nat.
Proof.
  induction s as [|c s IH]; [done|].
  change (S (String.length (s +:+ t)) = S (String.length s + String.length t)).
  by rewrite IH.
Qed.

Lemma string_app_inj_r (s1 s2 t : string) : s1 +:+ t = s2 +:+ t → s1 = s2.
Proof.
  revert s2. induction s1 as [|c1 s1 IH]; intros [|c2 s2] Heq; [done| | |].
  - apply (f_equal String.length) in Heq. rewrite !string_length_app in Heq.
    simpl in Heq. lia.
  - apply (f_equal String.length) in Heq. rewrite !string_length_app in Heq.
    simpl in Heq. lia.
  - change (String c1 (s1 +:+ t) = String c2 (s2 +:+ t)) in Heq.
    injection Heq as -> Heq. f_equal. by apply IH.
Qed.

Lemma rpsQuery_inj h1 h2 : rpsQuery h1 = rpsQuery h2 → h1 = h2.
Proof.
  unfold rpsQuery. intros Heq.
  apply String.app_inj, String.app_inj in Heq. by apply string_app_inj_r in Heq.
Qed.

Lemma replace_dots_id (s : string) :
  ¬ Ascii.ascii_of_N 46 ∈ String.list_ascii_of_string s → replace_dots s = s.
Proof.
  induction s as [|c s IH]; simpl; [done|].
  intros [Hc Ht]%not_elem_of_cons. rewrite decide_False by done. by rewrite IH.
Qed.

(** X20. [replace_dots] keeps the length of a host name, leaves no
    dot in it, changes nothing in a name that is already free of
    dots, and so changes nothing when applied again. *)
Theorem replace_dots_sanitises (s : string) :
  let dot := Ascii.ascii_of_N 46 in
  String.length (replace_dots s) = String.length s ∧
  (dot ∉ String.list_ascii_of_string (replace_dots s)) ∧
  (dot ∉ String.list_ascii_of_string s → replace_dots s = s) ∧
  replace_dots (replace_dots s) = replace_dots s.
Proof.
  intros dot.
  split; [|split; [apply replace_dots_free|split; [apply replace_dots_id|]]].
  - induction s as [|c s IH]; simpl; [done|]. by rewrite IH.
  - apply replace_dots_id, replace_dots_free.
Qed.

(** X21. Two ingress rules get the same delegate configuration
    exactly when their hosts agree once dots are replaced; a host and
    its replaced form are such a pair. *)
Theorem host_config_same_query config r1 r2 :
  (host_config config r1 = host_config config r2 ↔
   replace_dots (Host r1) = replace_dots (Host r2)) ∧
  host_config config {| Host := replace_dots (Host r1) |} = host_config config r1.
Proof.
  split; [split|].
  - intros Heq. apply (f_equal Config) in Heq. simpl in Heq.
    apply (f_equal (λ m : gmap string string, m !! "query")) in Heq.
    rewrite !lookup_singleton_eq in Heq. apply (inj Some) in Heq.
    apply rpsQuery_inj. exact Heq.
  - intros Heq. unfold host_config. by rewrite Heq.
  - unfold host_config. simpl.
    by rewrite (replace_dots_id _ (replace_dots_free (Host r1))).
Qed.

(** *** The plugins *)

(** X22. The ZMON plugin builds a collector exactly for the metric
    [zmon-check] with both a [check-id] and a [query] label; the
    collector then carries these two labels, the name, type and labels
    of the configuration, the endpoint of the plugin and the interval.
    Any other metric name is refused by name, and a missing label is
    reported, the check id first. *)
Theorem ZMONCollectorPlugin_NewCollector_accepts p hpa config interval :
  match ZMONCollectorPlugin_NewCollector p hpa config interval with
  | Ok c =>
      ConfigName config = "zmon-check" ∧
      ConfigLabels config !! "check-id" = Some (zmon_checkID c) ∧
      ConfigLabels config !! "query" = Some (zmon_query c) ∧
      zmon_metricName c = ConfigName config ∧
      zmon_metricType c = ConfigType config ∧
      zmon_labels c = ConfigLabels config ∧
      zmon_endpoint c = zmon_plugin_endpoint p ∧
      ZMONCollector_Interval c = interval
  | Err e =>
      (ConfigName config ≠ "zmon-check" ∧
       e = "metric '" +:+ ConfigName config +:+ "' not supported") ∨
      (ConfigName config = "zmon-check" ∧
       ConfigLabels config !! "check-id" = None ∧
       e = "ZMON check ID not specified on metric") ∨
      (ConfigName config = "zmon-check" ∧
       is_Some (ConfigLabels config !! "check-id") ∧
       ConfigLabels config !! "query" = None ∧
       e = "ZMON query not specified on metric")
  end.
Proof.
  unfold ZMONCollectorPlugin_NewCollector, NewZMONCollector, ZMONCheckMetric,
    zmonCheckIDLabelKey, zmonQueryLabelKey.
  case_decide as Hname; [|by left].
  destruct (ConfigLabels config !! "check-id") as [checkID|] eqn:Hid; [|by right; left].
  destruct (ConfigLabels config !! "query") as [query|] eqn:Hq; [done|].
  right; right. by eauto.
Qed.

(** X23. The Nakadi plugin builds a collector exactly for the metrics
    [nakadi-unconsumed-events] and [nakadi-consumer-lag-seconds] with
    both a [subscription-id] and an [event-type] label; the collector
    then carries these two labels, the name, type and labels of the
    configuration, the endpoint of the plugin and the interval.  Any
    other metric name is refused by name, and a missing label is
    reported, the subscription id first. *)
Theorem NakadiCollectorPlugin_NewCollector_accepts p hpa config interval :
  let supported :=
    ConfigName config = "nakadi-unconsumed-events" ∨
    ConfigName config = "nakadi-consumer-lag-seconds" in
  match NakadiCollectorPlugin_NewCollector p hpa config interval with
  | Ok c =>
      supported ∧
      ConfigLabels config !! "subscription-id" = Some (nakadi_subscriptionID c) ∧
      ConfigLabels config !! "event-type" = Some (nakadi_eventType c) ∧
      nakadi_metricName c = ConfigName config ∧
      nakadi_metricType c = ConfigType config ∧
      nakadi_labels c = ConfigLabels config ∧
      nakadi_endpoint c = nakadi_plugin_endpoint p ∧
      NakadiStatsCollector_Interval c = interval
  | Err e =>
      (¬ supported ∧ e = "metric '" +:+ ConfigName config +:+ "' not supported") ∨
      (supported ∧
       ConfigLabels config !! "subscription-id" = None ∧
       e = "nakadi subscription id not specified on metric") ∨
      (supported ∧
       is_Some (ConfigLabels config !! "subscription-id") ∧
       ConfigLabels config !! "event-type" = None ∧
       e = "nakadi event type not specified on metric")
  end.
Proof.
  intros supported.
  unfold NakadiCollectorPlugin_NewCollector, NewNakadiStatsCollector,
    NakadiUnconsumedEventsMetric, NakadiConsumerLagSeconds,
    nakadiSubscriptionIDLabelKey, nakadiEventTypeLabelKey.
  fold supported. case_decide as Hname; [|by left].
  destruct (ConfigLabels config !! "subscription-id") as [sid|] eqn:Hid; [|by right; left].
  destruct (ConfigLabels config !! "event-type") as [et|] eqn:Hq; [done|].
  right; right. by eauto.
Qed.

(** *** The average *)

(** X24. For a milli quantity below [2^53] in magnitude and at least
    one replica, the average the skipper collector computes through
    [float64] is off by less than one unit per replica: multiplied
    back it differs from the quantity by less than the replica count,
    it never exceeds the quantity in magnitude, and with one replica
    it is the quantity itself. *)
Theorem average_milli_error milli replicas :
  - 2 ^ 53 < milli < 2 ^ 53 → 1 ≤ replicas < 2 ^ 53 →
  let avg := average_milli milli replicas in
  Z.abs (milli - replicas * avg) < replicas ∧
  Z.abs avg ≤ Z.abs milli ∧
  (0 ≤ milli → 0 ≤ avg) ∧
  (replicas = 1 → avg = milli).
Proof.
  intros Hm Hr avg. unfold avg. rewrite average_milli_exact by done.
  pose proof (Z.quot_rem' milli replicas) as Hqr.
  pose proof (Z.rem_bound_abs milli replicas ltac:(lia)) as Hrem.
  pose proof (Z.quot_abs milli replicas ltac:(lia)) as Habs.
  assert (Z.abs milli ÷ Z.abs replicas ≤ Z.abs milli) as Hle.
  { rewrite Z.quot_div_nonneg by lia. apply Z.div_le_upper_bound; nia. }
  split; [lia|]. split; [lia|]. split.
  - intros Hpos. apply Z.quot_pos; lia.
  - intros ->. apply Z.quot_1_r.
Qed.

(** * The further properties at sample inputs *)

Lemma reachable_insert_read_back_witness :
  let v := sample_metric "Pod" "ns1" "pod-a" 42 in
  let s' := @store_with_pod_a canonical_order in
  @reachable canonical_order NewMetricStore ∧
  (Type_ v = ObjectMetricSourceType ∨ Type_ v = PodsMetricSourceType) ∧
  @Insert canonical_order 0 v NewMetricStore = Returned s' ∧
  @GetMetricsByName canonical_order "requests-per-second"
    {| schema.Group := ""; schema.Resource := "pods" |} "ns1" "pod-a" s'
    = Some (Custom v).
Proof.
  intros v s'.
  assert (@reachable canonical_order NewMetricStore) as Hreach by constructor.
  assert (Type_ v = ObjectMetricSourceType ∨ Type_ v = PodsMetricSourceType) as Hty
    by (right; reflexivity).
  assert (@Insert canonical_order 0 v NewMetricStore = Returned s') as Hins
    by (vm_compute; reflexivity).
  split; [exact Hreach|]. split; [exact Hty|]. split; [exact Hins|].
  exact (@reachable_insert_read_back canonical_order 0 v NewMetricStore s' Hreach Hty Hins).
Defined.

Lemma reachable_metric_in_one_place_witness :
  let s1 := @store_with_pod_a canonical_order in
  let s2 := state_after (@Insert canonical_order 1 (sample_metric "Pod" "ns1" "pod-b" 7) s1) in
  let i := identity_of (sample_value "Pod" "ns1" "pod-a" 42) in
  let j := identity_of (sample_value "Pod" "ns1" "pod-b" 7) in
  @reachable canonical_order s2 ∧
  is_Some (lookup_custom s2 i) ∧ is_Some (lookup_custom s2 j) ∧
  id_metric i = id_metric j ∧
  id_group i = id_group j ∧ id_namespace i = id_namespace j.
Proof.
  intros s1 s2 i j.
  assert (@reachable canonical_order s2) as Hreach.
  { apply (@reachable_Insert canonical_order 1 (sample_metric "Pod" "ns1" "pod-b" 7) s1);
      [|vm_compute; reflexivity].
    apply (@reachable_Insert canonical_order 0 (sample_metric "Pod" "ns1" "pod-a" 42)
             NewMetricStore); [constructor|vm_compute; reflexivity]. }
  assert (is_Some (lookup_custom s2 i)) as Hi by (eexists; vm_compute; reflexivity).
  assert (is_Some (lookup_custom s2 j)) as Hj by (eexists; vm_compute; reflexivity).
  assert (id_metric i = id_metric j) as Hm by reflexivity.
  split; [exact Hreach|]. split; [exact Hi|]. split; [exact Hj|]. split; [exact Hm|].
  exact (@reachable_metric_in_one_place canonical_order s2 i j Hreach Hi Hj Hm).
Defined.

Lemma insert_sweep_lookup_witness :
  let v := sample_value "Pod" "ns1" "pod-a" 42 in
  let late := λ (_ : string) (_ : schema.GroupResource) (_ _ : string), 16 * Minute in
  id_namespace (identity_of v) ≠ "" ∧
  @GetMetricsByName canonical_order "requests-per-second"
    {| schema.Group := ""; schema.Resource := "pods" |} "ns1" "pod-a"
    (@RemoveExpired canonical_order late (λ _ _, 0)
       (state_after (insertCustomMetric 0 v ∅ NewMetricStore)))
  = None.
Proof.
  intros v late.
  assert (id_namespace (identity_of v) ≠ "") as Hns by discriminate.
  split; [exact Hns|].
  exact (@insert_sweep_lookup canonical_order 0 v ∅ NewMetricStore late (λ _ _, 0) Hns).
Defined.

Lemma ListAllMetrics_lists_entries_witness :
  let s := @store_with_pod_a canonical_order in
  let i := identity_of (sample_value "Pod" "ns1" "pod-a" 42) in
  let sm := {| cValue := sample_value "Pod" "ns1" "pod-a" 42;
               cLabels := {[ "app" := "x" ]};
               cTTL := 15 * Minute |} in
  lookup_custom s i = Some sm ∧ info_of i ∈ @ListAllMetrics canonical_order s.
Proof.
  intros s i sm.
  assert (lookup_custom s i = Some sm) as Hl by (vm_compute; reflexivity).
  split; [exact Hl|].
  exact (@ListAllMetrics_lists_entries canonical_order s i sm Hl).
Defined.

Lemma ListAllMetrics_after_RemoveExpired_witness :
  let early := λ (_ : string) (_ : schema.GroupResource) (_ _ : string), 0 in
  let s' := @RemoveExpired canonical_order early (λ _ _, 0) (@store_with_pod_a canonical_order) in
  let info := info_of (identity_of (sample_value "Pod" "ns1" "pod-a" 42)) in
  info ∈ @ListAllMetrics canonical_order s' ∧
  ∃ i sm, lookup_custom s' i = Some sm ∧ info = info_of i.
Proof.
  intros early s' info.
  assert (info ∈ @ListAllMetrics canonical_order s') as Hin.
  { assert (@ListAllMetrics canonical_order s' = [info]) as -> by (vm_compute; reflexivity).
    apply list_elem_of_here. }
  split; [exact Hin|].
  exact (@ListAllMetrics_after_RemoveExpired canonical_order early (λ _ _, 0)
           (@store_with_pod_a canonical_order) info Hin).
Defined.

Lemma unmapped_kinds_share_identity_witness :
  let v1 := sample_value "Deployment" "ns1" "web" 1 in
  let v2 := sample_value "StatefulSet" "ns1" "web" 2 in
  let s1 := state_after (insertCustomMetric 0 v1 ∅ NewMetricStore) in
  custom_metrics.Kind (custom_metrics.DescribedObject v1) ≠ "Pod" ∧
  custom_metrics.Kind (custom_metrics.DescribedObject v1) ≠ "Ingress" ∧
  custom_metrics.Kind (custom_metrics.DescribedObject v2) ≠ "Pod" ∧
  custom_metrics.Kind (custom_metrics.DescribedObject v2) ≠ "Ingress" ∧
  identity_of v1 = identity_of v2 ∧
  ∃ s2, insertCustomMetric 5 v2 ∅ s1 = Returned s2 ∧
        lookup_custom s2 (identity_of v1) =
          Some {| cValue := v2; cLabels := ∅; cTTL := 5 + 15 * Minute |} ∧
        entries_at s2 (identity_of v1) = 1%nat.
Proof.
  intros v1 v2 s1.
  assert (custom_metrics.Kind (custom_metrics.DescribedObject v1) ≠ "Pod") as H1
    by discriminate.
  assert (custom_metrics.Kind (custom_metrics.DescribedObject v1) ≠ "Ingress") as H2
    by discriminate.
  assert (custom_metrics.Kind (custom_metrics.DescribedObject v2) ≠ "Pod") as H3
    by discriminate.
  assert (custom_metrics.Kind (custom_metrics.DescribedObject v2) ≠ "Ingress") as H4
    by discriminate.
  split; [exact H1|]. split; [exact H2|]. split; [exact H3|]. split; [exact H4|].
  exact (proj2 (unmapped_kinds_share_identity 0 5 v1 v2 ∅ ∅ NewMetricStore
                  H1 H2 H3 H4 eq_refl eq_refl eq_refl)).
Defined.

Lemma hashLabelMap_not_injective_witness :
  let two : Labels := <["a" := "1"]> {["b" := "2"]} in
  "a" ≠ "b" ∧
  ∃ k1 v1 : string,
    ({[k1 := v1]} : Labels) ≠ two ∧
    @hashLabelMap canonical_order {[k1 := v1]} = @hashLabelMap reversed_order two.
Proof.
  intros two.
  assert ("a" ≠ "b") as Hne by discriminate.
  split; [exact Hne|].
  destruct (hashLabelMap_not_injective canonical_order reversed_order "a" "1" "b" "2" Hne)
    as (k1 & v1 & Hdiff & Hkey & _).
  exists k1, v1. split; [exact Hdiff|exact Hkey].
Defined.

Lemma insert_then_select_witness :
  let v := sample_value "Pod" "ns1" "pod-a" 42 in
  let labels : Labels := {[ "app" := "x" ]} in
  let selector : Selector := λ l, bool_decide (l !! "app" = Some "x") in
  let s' := state_after (insertCustomMetric 0 v labels NewMetricStore) in
  ("" = "" ∨ "" = id_namespace (identity_of v)) ∧
  selector labels = true ∧
  ∃ items,
    @GetMetricsBySelector canonical_order "requests-per-second"
      {| schema.Group := ""; schema.Resource := "pods" |} "" selector s' = Some items ∧
    v ∈ items.
Proof.
  intros v labels selector s'.
  assert ("" = "" ∨ "" = id_namespace (identity_of v)) as Hns by (left; reflexivity).
  assert (selector labels = true) as Hsel by (vm_compute; reflexivity).
  split; [exact Hns|]. split; [exact Hsel|].
  destruct (@insert_then_select canonical_order 0 v labels selector NewMetricStore "" Hns)
    as (items & Hitems & Hin & _).
  exists items. split; [exact Hitems|exact (Hin Hsel)].
Defined.

Lemma SkipperCollector_GetMetrics_success_witness :
  let c := sample_skipper ["www.example.org"] "Deployment" in
  let quote := String (Ascii.ascii_of_N 34) EmptyString in
  let query :=
    "scalar(sum(rate(skipper_serve_host_duration_seconds_count{host="
      +:+ quote +:+ "www_example_org" +:+ quote +:+ "}[1m])))" in
  let values := [host_value query 300] in
  let w' := ["ingress"; query; "deployment"] in
  SkipperCollector_GetMetrics c [] = (Ok values, w') ∧
  ∃ collector w1 value w2 replicas r,
    getCollector c [] = (Ok collector, w1) ∧
    GetMetrics collector w1 = (Ok [value], w2) ∧
    targetRefReplicas (skipper_client c) (skipper_hpa c) w2 = (Ok replicas, w') ∧
    1 ≤ replicas ∧
    values = [r] ∧
    custom_metrics.Value (Custom r)
      = average_milli (custom_metrics.Value (Custom value)) replicas.
Proof.
  intros c quote query values w'.
  assert (SkipperCollector_GetMetrics c [] = (Ok values, w')) as Hget by reflexivity.
  split; [exact Hget|].
  destruct (SkipperCollector_GetMetrics_success c [] values w' Hget)
    as (collector & w1 & value & w2 & replicas & r & Hc & Hv & Hr & Hge & Hvs & Hq & _).
  exists collector, w1, value, w2, replicas, r.
  split; [exact Hc|]. split; [exact Hv|]. split; [exact Hr|]. split; [exact Hge|].
  split; [exact Hvs|exact Hq].
Defined.

Lemma skipper_unsupported_target_always_fails_witness :
  let p : SkipperCollectorPlugin Trace :=
    {| skipper_plugin_client := sample_client ["www.example.org"];
       skipper_plugin_plugin := sample_plugin |} in
  let hpa := sample_hpa "DaemonSet" in
  let c := sample_skipper ["www.example.org"] "DaemonSet" in
  SkipperCollectorPlugin_NewCollector p hpa sample_config 60 = Ok c ∧
  TargetKind (ScaleTargetRef hpa) ≠ "Deployment" ∧
  TargetKind (ScaleTargetRef hpa) ≠ "StatefulSet" ∧
  ∃ e w', SkipperCollector_GetMetrics c [] = (Err e, w').
Proof.
  intros p hpa c.
  assert (SkipperCollectorPlugin_NewCollector p hpa sample_config 60 = Ok c) as Hnew
    by reflexivity.
  assert (TargetKind (ScaleTargetRef hpa) ≠ "Deployment") as Hd by discriminate.
  assert (TargetKind (ScaleTargetRef hpa) ≠ "StatefulSet") as Hs by discriminate.
  split; [exact Hnew|]. split; [exact Hd|]. split; [exact Hs|].
  exact (skipper_unsupported_target_always_fails p hpa sample_config 60 c Hnew Hd Hs []).
Defined.

Lemma average_milli_error_witness :
  - 2 ^ 53 < 1000 < 2 ^ 53 ∧ 1 ≤ 3 < 2 ^ 53 ∧
  Z.abs (1000 - 3 * average_milli 1000 3) < 3 ∧
  Z.abs (average_milli 1000 3) ≤ Z.abs 1000.
Proof.
  assert (- 2 ^ 53 < 1000 < 2 ^ 53) as Hm by lia.
  assert (1 ≤ 3 < 2 ^ 53) as Hr by lia.
  split; [exact Hm|]. split; [exact Hr|].
  pose proof (average_milli_error 1000 3 Hm Hr) as (Herr & Habs & _).
  split; [exact Herr|exact Habs].
Defined.
